(** * ChatMemoryService (app/services/memory_service.py)

    A shallow embedding of the in-process conversation memory store and
    the properties its specification states about it.

    Python objects that the service shares by reference (the per-session
    history lists) live in an explicit object heap; the two dictionaries
    of the service are finite maps; every call of [datetime.now()] is an
    explicit argument of the operation that makes it, in call order;
    [settings.max_history_per_session] is read at each write and is an
    argument of [add_exchange]. Times and durations are integers counting
    microseconds, the resolution of [datetime] and [timedelta]. *)

From Stdlib Require Import ZArith String List Lia.
From stdpp Require Import base option list gmap strings fin_maps.

Set Warnings "-clear-no-such-hyp".
Local Open Scope Z_scope.

(** ** Data model *)

(** One question/answer pair: [Tuple[str, str]]. *)
Abbreviation Exchange := (string * string)%type (only parsing).

(** [List[Tuple[str, str]]], the content of one list object. *)
Abbreviation History := (list (string * string)%type) (only parsing).

(** The state of one [ChatMemoryService] object. [_memory] binds a session
    id to a reference to its list object, [_last_activity] to the
    [datetime] of its last refresh. *)
Record ChatMemoryService : Type := mkService {
  _memory : gmap string nat;
  _last_activity : gmap string Z;
  _session_timeout : Z;
  _cleanup_interval_seconds : Z
}.

(** The interpreter state the operations run in: the list objects
    allocated so far, addressed by position, and the service. *)
Record World : Type := mkWorld {
  lists : list History;
  self : ChatMemoryService
}.

(** [timedelta(minutes=m)] and [timedelta(seconds=s)] in microseconds. *)
Definition timedelta_minutes (m : Z) : Z := m * 60000000.
Definition timedelta_seconds (s : Z) : Z := s * 1000000.

(** [__init__]: both dictionaries start empty; the interval is clamped
    from below at 5 seconds. *)
Definition init (session_timeout_minutes cleanup_interval_seconds : Z)
  : ChatMemoryService :=
  {| _memory := ∅;
     _last_activity := ∅;
     _session_timeout := timedelta_minutes session_timeout_minutes;
     _cleanup_interval_seconds := Z.max 5 cleanup_interval_seconds |}.

Definition with_memory (m : gmap string nat) (s : ChatMemoryService)
  : ChatMemoryService :=
  {| _memory := m;
     _last_activity := _last_activity s;
     _session_timeout := _session_timeout s;
     _cleanup_interval_seconds := _cleanup_interval_seconds s |}.

Definition with_last_activity (a : gmap string Z) (s : ChatMemoryService)
  : ChatMemoryService :=
  {| _memory := _memory s;
     _last_activity := a;
     _session_timeout := _session_timeout s;
     _cleanup_interval_seconds := _cleanup_interval_seconds s |}.

(** ** Computations: state passing with Python exceptions *)

Inductive exn : Type :=
| KeyError (key : string).

Inductive outcome (A : Type) : Type :=
| Returns (a : A) (w : World)
| Raises (e : exn).
Arguments Returns {A} a w.
Arguments Raises {A} e.

Definition M (A : Type) : Type := World -> outcome A.

Definition ret {A : Type} (a : A) : M A := fun w => Returns a w.

Definition bind {A B : Type} (m : M A) (k : A -> M B) : M B :=
  fun w => match m w with
           | Returns a w' => k a w'
           | Raises e => Raises e
           end.

Notation "x <~ m ;; k" := (bind m (fun x => k))
  (at level 100, m at next level, right associativity).
Notation "m ;;; k" := (bind m (fun _ => k))
  (at level 100, right associativity).

(** [for x in xs: body(x)] *)
Fixpoint for_each {A : Type} (xs : list A) (body : A -> M unit) : M unit :=
  match xs with
  | [] => ret tt
  | x :: xs' => body x ;;; for_each xs' body
  end.

(** *** Dictionary and list primitives *)

(** [sid in self._memory] *)
Definition memory_contains (sid : string) : M bool :=
  fun w => Returns (bool_decide (is_Some (_memory (self w) !! sid))) w.

(** [sid in self._last_activity] *)
Definition last_activity_contains (sid : string) : M bool :=
  fun w => Returns (bool_decide (is_Some (_last_activity (self w) !! sid))) w.

(** [self._last_activity[sid] = t] *)
Definition last_activity_setitem (sid : string) (t : Z) : M unit :=
  fun w => Returns tt
    {| lists := lists w;
       self := with_last_activity (<[sid := t]> (_last_activity (self w))) (self w) |}.

(** [self._last_activity[sid]] on a plain [dict]: [KeyError] when absent. *)
Definition last_activity_getitem (sid : string) : M Z :=
  fun w => match _last_activity (self w) !! sid with
           | Some t => Returns t w
           | None => Raises (KeyError sid)
           end.

(** [self._last_activity.get(sid)] *)
Definition last_activity_get (sid : string) : M (option Z) :=
  fun w => Returns (_last_activity (self w) !! sid) w.

(** [del self._last_activity[sid]]: [KeyError] when absent. *)
Definition last_activity_delitem (sid : string) : M unit :=
  fun w => match _last_activity (self w) !! sid with
           | Some _ => Returns tt
               {| lists := lists w;
                  self := with_last_activity (delete sid (_last_activity (self w))) (self w) |}
           | None => Raises (KeyError sid)
           end.

(** A new list object with the given content; its reference. *)
Definition list_new (h : History) : M nat :=
  fun w => Returns (length (lists w))
    {| lists := lists w ++ [h]; self := self w |}.

(** The content of a list object. Every reference the service hands out
    was allocated by [list_new]; a reference outside the heap reads as
    the empty list. *)
Definition list_read (l : nat) : M History :=
  fun w => Returns (default [] (lists w !! l)) w.

(** [lst.append(x)], in place. *)
Definition list_append (l : nat) (x : Exchange) : M unit :=
  fun w => Returns tt
    {| lists := alter (fun h => h ++ [x]) l (lists w); self := self w |}.

(** [self._memory[sid] = lst] *)
Definition memory_setitem (sid : string) (l : nat) : M unit :=
  fun w => Returns tt
    {| lists := lists w;
       self := with_memory (<[sid := l]> (_memory (self w))) (self w) |}.

(** [self._memory[sid]] on a [defaultdict(list)]: a missing key is bound
    to a new empty list, which is returned. *)
Definition memory_getitem (sid : string) : M nat :=
  fun w => match _memory (self w) !! sid with
           | Some l => Returns l w
           | None => (l <~ list_new [] ;; memory_setitem sid l ;;; ret l) w
           end.

(** [self._memory.get(sid, [])]: the default is a new list object that
    is not stored in the dictionary. *)
Definition memory_get (sid : string) : M nat :=
  fun w => match _memory (self w) !! sid with
           | Some l => Returns l w
           | None => list_new [] w
           end.

(** [del self._memory[sid]]: [KeyError] when absent. *)
Definition memory_delitem (sid : string) : M unit :=
  fun w => match _memory (self w) !! sid with
           | Some _ => Returns tt
               {| lists := lists w;
                  self := with_memory (delete sid (_memory (self w))) (self w) |}
           | None => Raises (KeyError sid)
           end.

(** [lst[start:]] with Python's treatment of a negative or too large
    start index. *)
Definition slice_from (start : Z) (h : History) : History :=
  let n := Z.of_nat (length h) in
  let s := if start <? 0 then Z.max (n + start) 0 else Z.min start n in
  drop (Z.to_nat s) h.

(** ** The operations of the service *)

(** The session ids whose last activity lies more than the timeout before
    [now]: the list comprehension of [_cleanup_inactive_sessions]. Python
    enumerates the dictionary in insertion order, [map_to_list] in its
    own; each key occurs once in both, and what the loop leaves does not
    depend on the order ([cleanup_returns]). *)
Definition inactive_sessions (now : Z) (s : ChatMemoryService) : list string :=
  (filter (fun p : string * Z => _session_timeout s < now - p.2)
          (map_to_list (_last_activity s))).*1.

(** The body of the loop of [_cleanup_inactive_sessions]: the history is
    deleted when there is one, the timestamp unconditionally. *)
Definition remove_inactive (session_id : string) : M unit :=
  b <~ memory_contains session_id ;;
  (if b then memory_delitem session_id else ret tt) ;;;
  last_activity_delitem session_id.

(** [_cleanup_inactive_sessions]; [now] is its one clock reading. *)
Definition _cleanup_inactive_sessions (now : Z) : M nat :=
  fun w =>
    let inactive := inactive_sessions now (self w) in
    (for_each inactive remove_inactive ;;;
     ret (length inactive)) w.

(** [add_exchange]; [t_refresh] is the clock reading stored as the
    timestamp, [t_sweep] the later one taken by the sweep, [max_history]
    the value of [settings.max_history_per_session] at this call. *)
Definition add_exchange (t_refresh t_sweep max_history : Z)
    (session_id question answer : string) : M unit :=
  last_activity_setitem session_id t_refresh ;;;
  _cleanup_inactive_sessions t_sweep ;;;
  l <~ memory_getitem session_id ;;
  list_append l (question, answer) ;;;
  l1 <~ memory_getitem session_id ;;
  h1 <~ list_read l1 ;;
  if max_history <? Z.of_nat (length h1) then
    l2 <~ memory_getitem session_id ;;
    h2 <~ list_read l2 ;;
    l3 <~ list_new (slice_from (- max_history) h2) ;;
    memory_setitem session_id l3
  else ret tt.

(** [get_history]; the result is a reference to the stored list object
    (or to a new empty one). *)
Definition get_history (now : Z) (session_id : string) : M nat :=
  b <~ memory_contains session_id ;;
  (if b then last_activity_setitem session_id now else ret tt) ;;;
  memory_get session_id.

(** [clear_session] *)
Definition clear_session (session_id : string) : M bool :=
  b1 <~ memory_contains session_id ;;
  existed <~ (if b1 then ret true else last_activity_contains session_id) ;;
  b2 <~ memory_contains session_id ;;
  (if b2 then memory_delitem session_id else ret tt) ;;;
  b3 <~ last_activity_contains session_id ;;
  (if b3 then last_activity_delitem session_id else ret tt) ;;;
  ret existed.

(** [HumanMessage(content=...)] and [AIMessage(content=...)]. *)
Inductive Message : Type :=
| HumanMessage (content : string)
| AIMessage (content : string).

(** The loop of [get_langchain_format] over the history, appending two
    messages per exchange to [messages]. *)
Definition append_messages (messages : list Message) (history : History)
  : list Message :=
  foldl (fun acc (e : Exchange) =>
           (acc ++ [HumanMessage e.1]) ++ [AIMessage e.2])
        messages history.

(** [get_langchain_format]; [now1] is the reading of its own refresh,
    [now2] the one of the nested [get_history]. *)
Definition get_langchain_format (now1 now2 : Z) (session_id : string)
  : M (list Message) :=
  b <~ memory_contains session_id ;;
  (if b then last_activity_setitem session_id now1 else ret tt) ;;;
  history <~ get_history now2 session_id ;;
  h <~ list_read history ;;
  ret (append_messages [] h).

(** [get_all_sessions]: [dict(self._memory)] is a new dictionary with the
    same keys bound to the same list objects. *)
Definition get_all_sessions (now : Z) : M (gmap string nat) :=
  _cleanup_inactive_sessions now ;;;
  fun w => Returns (_memory (self w)) w.

(** [session_count] *)
Definition session_count (now : Z) : M nat :=
  _cleanup_inactive_sessions now ;;;
  fun w => Returns (size (_memory (self w))) w.

(** The dictionary [get_session_info] returns: [{"exists": False}] or the
    four-key one, whose ["last_activity"] is [None] without a timestamp. *)
Inductive SessionInfo : Type :=
| NoSession
| Info (message_count : nat) (last_activity : option Z) (is_active : bool).

(** [get_session_info]; [now] is read only when the session has a
    timestamp ([and] evaluates its right operand only then). *)
Definition get_session_info (now : Z) (session_id : string) : M SessionInfo :=
  b <~ memory_contains session_id ;;
  if negb b then ret NoSession
  else
    l <~ memory_getitem session_id ;;
    h <~ list_read l ;;
    last <~ last_activity_get session_id ;;
    has <~ last_activity_contains session_id ;;
    active <~ (if has then
                 t <~ last_activity_getitem session_id ;;
                 fun w => Returns (bool_decide (now - t < _session_timeout (self w))) w
               else ret false) ;;
    ret (Info (length h) last active).

(** ** Notions used in the statements *)

(** The session has a timestamp that lies more than the timeout before
    [now]. *)
Definition expired (now : Z) (s : ChatMemoryService) (sid : string) : bool :=
  match _last_activity s !! sid with
  | Some t => bool_decide (_session_timeout s < now - t)
  | None => false
  end.

(** The service after a sweep at [now]: the expired sessions are gone from
    both dictionaries. *)
Definition swept (now : Z) (s : ChatMemoryService) : ChatMemoryService :=
  {| _memory :=
       filter (fun p : string * nat => expired now s p.1 = false) (_memory s);
     _last_activity :=
       filter (fun p : string * Z => ¬ _session_timeout s < now - p.2)
              (_last_activity s);
     _session_timeout := _session_timeout s;
     _cleanup_interval_seconds := _cleanup_interval_seconds s |}.

(** The history the service holds for a session, if any. *)
Definition history_of (w : World) (sid : string) : option History :=
  l ← _memory (self w) !! sid; Some (default [] (lists w !! l)).

(** The content behind a reference. *)
Definition deref (w : World) (l : nat) : History := default [] (lists w !! l).

(** The session has a history entry or a timestamp: the test of
    [clear_session]. *)
Definition session_exists (s : ChatMemoryService) (sid : string) : Prop :=
  is_Some (_memory s !! sid) ∨ is_Some (_last_activity s !! sid).

(** Both dictionaries have the same keys. *)
Definition maps_agree (s : ChatMemoryService) : Prop :=
  ∀ sid : string, is_Some (_memory s !! sid) ↔ is_Some (_last_activity s !! sid).

(** Every reference held in [_memory] points into the heap. *)
Definition refs_valid (w : World) : Prop :=
  ∀ (sid : string) (l : nat), _memory (self w) !! sid = Some l → (l < length (lists w))%nat.

(** ** Named states and helpers of the statements *)

(** The state in which [add_exchange] appends: timestamp refreshed at
    [t_refresh], then swept at [t_sweep]. *)
Definition refreshed_swept (t_refresh t_sweep : Z) (sid : string)
    (s : ChatMemoryService) : ChatMemoryService :=
  swept t_sweep (with_last_activity (<[sid := t_refresh]> (_last_activity s)) s).

(** The service after [clear_session]. *)
Definition cleared (sid : string) (s : ChatMemoryService) : ChatMemoryService :=
  {| _memory := delete sid (_memory s);
     _last_activity := delete sid (_last_activity s);
     _session_timeout := _session_timeout s;
     _cleanup_interval_seconds := _cleanup_interval_seconds s |}.

(** The two messages of each exchange, in history order. *)
Definition messages_of (h : History) : list Message :=
  flat_map (fun e : Exchange => [HumanMessage e.1; AIMessage e.2]) h.

(** The last [k] entries of a history. *)
Definition last_n (k : nat) (h : History) : History := drop (length h - k) h.

(** What the tail of [add_exchange] does to the history it has appended to. *)
Definition truncate (max_history : Z) (h : History) : History :=
  if max_history <? Z.of_nat (length h) then slice_from (- max_history) h else h.

(** The list object bound to the session holds [h]; no binding counts as
    the empty history. *)
Definition has_history (w : World) (sid : string) (h : History) : Prop :=
  match _memory (self w) !! sid with
  | Some l => lists w !! l = Some h
  | None => h = []
  end.

(** The public operations (and the sweep the reaper runs), with the clock
    readings each one takes. *)
Inductive operation : Type :=
| AddExchange (t_refresh t_sweep max_history : Z) (sid question answer : string)
| GetHistory (now : Z) (sid : string)
| ClearSession (sid : string)
| GetLangchainFormat (now1 now2 : Z) (sid : string)
| GetAllSessions (now : Z)
| SessionCount (now : Z)
| GetSessionInfo (now : Z) (sid : string)
| Sweep (now : Z).

Definition world_after {A : Type} (o : outcome A) : option World :=
  match o with
  | Returns _ w => Some w
  | Raises _ => None
  end.

(** The world an operation leaves, if it returns. *)
Definition run (op : operation) (w : World) : option World :=
  match op with
  | AddExchange t1 t2 mh sid q a => world_after (add_exchange t1 t2 mh sid q a w)
  | GetHistory now sid => world_after (get_history now sid w)
  | ClearSession sid => world_after (clear_session sid w)
  | GetLangchainFormat now1 now2 sid =>
      world_after (get_langchain_format now1 now2 sid w)
  | GetAllSessions now => world_after (get_all_sessions now w)
  | SessionCount now => world_after (session_count now w)
  | GetSessionInfo now sid => world_after (get_session_info now sid w)
  | Sweep now => world_after (_cleanup_inactive_sessions now w)
  end.

(** The sweep inside [add_exchange] reads the clock at most the timeout
    after the refresh did, so it does not evict the session being
    written. The other operations carry no condition. *)
Definition sweep_in_time (op : operation) (s : ChatMemoryService) : Prop :=
  match op with
  | AddExchange t1 t2 _ _ _ _ => t2 - t1 ≤ _session_timeout s
  | _ => True
  end.

(** Every session with a timestamp has a history entry. *)
Definition timestamps_have_history (s : ChatMemoryService) : Prop :=
  ∀ sid : string, is_Some (_last_activity s !! sid) → is_Some (_memory s !! sid).

(** The worlds the operations can produce from a new service. *)
Inductive reachable : World → Prop :=
| reachable_init (minutes seconds : Z) :
    reachable {| lists := []; self := init minutes seconds |}
| reachable_run (op : operation) (w w' : World) :
    reachable w → run op w = Some w' → reachable w'.

(** What a caller holding the dictionary returned by [get_all_sessions]
    reads through it in world [w]. *)
Definition snapshot_view (w : World) (snapshot : gmap string nat)
  : gmap string History :=
  deref w <$> snapshot.

(** A new service with the default settings, and the world after one
    write to it. *)
Definition new_world : World := {| lists := []; self := init 30 60 |}.

Definition one_session : World :=
  {| lists := [[("q", "a")]];
     self := {| _memory := <["s1" := 0%nat]> ∅;
                _last_activity := <["s1" := 0]> ∅;
                _session_timeout := timedelta_minutes 30;
                _cleanup_interval_seconds := 60 |} |}.

(** A world with one session, whose history has two exchanges. *)
Definition two_exchanges : World :=
  {| lists := [[("q1", "a1"); ("q2", "a2")]];
     self := {| _memory := <["s" := 0%nat]> ∅;
                _last_activity := <["s" := 0]> ∅;
                _session_timeout := timedelta_minutes 30;
                _cleanup_interval_seconds := 60 |} |}.

(** Rewriting of the membership tests once the lookup is known. *)
Ltac membership :=
  repeat first
    [ rewrite (bool_decide_eq_true_2 (is_Some (Some _))) by eauto
    | rewrite (bool_decide_eq_false_2 (is_Some None)) by (by intros [? ?]) ].

(** ** Further notions *)

(** Distinct sessions are bound to distinct list objects. *)
Definition refs_distinct (s : ChatMemoryService) : Prop :=
  ∀ (sid1 sid2 : string) (l : nat),
    _memory s !! sid1 = Some l → _memory s !! sid2 = Some l → sid1 = sid2.

(** No session holds more than [bound] exchanges. *)
Definition histories_bounded (bound : Z) (w : World) : Prop :=
  ∀ (sid : string) (h : History),
    history_of w sid = Some h → Z.of_nat (length h) ≤ bound.

(** An operation that, if it is a write, reads a positive
    [max_history_per_session] of at most [bound]. *)
Definition writes_within (bound : Z) (op : operation) : Prop :=
  match op with
  | AddExchange _ _ mh _ _ _ => 0 < mh ≤ bound
  | _ => True
  end.

(** ** The background reaper *)

(** The cleanup thread run on its own: the world it sweeps, and how often
    it has so far asked [self._stop_event.is_set()], swept and called
    [time.sleep(1)]. *)
Record Reaper : Type := mkReaper {
  world : World;
  checks : nat;
  sweeps : nat;
  sleeps : nat
}.

(** The thread as [__init__] starts it. *)
Definition start (w : World) : Reaper :=
  {| world := w; checks := 0; sweeps := 0; sleeps := 0 |}.

(** [self._stop_event.is_set()]. The event is set by [stop] from another
    thread and never cleared: [stop_after] calls are answered [False],
    every later one [True]. *)
Definition is_set (stop_after : nat) (r : Reaper) : bool * Reaper :=
  (bool_decide (stop_after ≤ checks r)%nat,
   {| world := world r; checks := S (checks r);
      sweeps := sweeps r; sleeps := sleeps r |}).

(** [time.sleep(1)] *)
Definition sleep (r : Reaper) : Reaper :=
  {| world := world r; checks := checks r;
     sweeps := sweeps r; sleeps := S (sleeps r) |}.

(** [try: self._cleanup_inactive_sessions() except Exception: pass]; the
    sweep reads [clock k] when [k] sweeps came before. *)
Definition try_cleanup (clock : nat → Z) (r : Reaper) : Reaper :=
  {| world := match _cleanup_inactive_sessions (clock (sweeps r)) (world r) with
              | Returns _ w' => w'
              | Raises _ => world r
              end;
     checks := checks r;
     sweeps := S (sweeps r);
     sleeps := sleeps r |}.

(** The inner loop,
    [while total < self._cleanup_interval_seconds and not is_set():
       time.sleep(1); total += 1];
    [None] when [fuel] turns of it do not suffice. *)
Fixpoint wait_interval (fuel : nat) (stop_after : nat) (total : Z) (r : Reaper)
  : option Reaper :=
  if total <? _cleanup_interval_seconds (self (world r)) then
    let (stopped, r1) := is_set stop_after r in
    if stopped then Some r1
    else match fuel with
         | O => None
         | S fuel' => wait_interval fuel' stop_after (total + 1) (sleep r1)
         end
  else Some r.

(** [_run_cleanup_loop]; [None] when [fuel] turns of the outer loop do not
    suffice. The inner loop gets the fuel it can need at most. *)
Fixpoint _run_cleanup_loop (fuel : nat) (stop_after : nat) (clock : nat → Z)
    (r : Reaper) : option Reaper :=
  let (stopped, r1) := is_set stop_after r in
  if stopped then Some r1
  else match fuel with
       | O => None
       | S fuel' =>
           let r2 := try_cleanup clock r1 in
           match wait_interval
                   (Z.to_nat (_cleanup_interval_seconds (self (world r2))))
                   stop_after 0 r2 with
           | Some r3 => _run_cleanup_loop fuel' stop_after clock r3
           | None => None
           end
       end.

(** The service after the first [n] sweeps of the reaper. *)
Fixpoint swept_by (clock : nat → Z) (n : nat) (s : ChatMemoryService)
  : ChatMemoryService :=
  match n with
  | O => s
  | S n' => swept (clock n') (swept_by clock n' s)
  end.

(** ** The process-wide instance *)

(** The attributes of [settings] the module reads; [None] is a missing
    attribute. *)
Record Settings : Type := mkSettings {
  session_timeout_minutes : option Z;
  cleanup_interval_seconds : option Z
}.

(** [timedelta(minutes=m)] raises [OverflowError] unless the number of
    whole days is within [-999999999, 999999999]. *)
Definition timedelta_minutes_ok (m : Z) : bool :=
  (-999999999 <=? m / 1440) && (m / 1440 <=? 999999999).

(** [ChatMemoryService(m, c)]: [None] when the constructor raises. *)
Definition new_service (m c : Z) : option ChatMemoryService :=
  if timedelta_minutes_ok m then Some (init m c) else None.

(** The module-level [try: chat_memory = ChatMemoryService(...)
    except: chat_memory = ChatMemoryService(30, 60)]; reading
    [settings.session_timeout_minutes] raises when the attribute is
    missing, [getattr(settings, "cleanup_interval_seconds", 60)] does
    not. *)
Definition chat_memory (settings : Settings) : option ChatMemoryService :=
  match (m ← session_timeout_minutes settings;
         new_service m (default 60 (cleanup_interval_seconds settings))) with
  | Some s => Some s
  | None => new_service 30 60
  end.

(** ** Runs of several operations *)

(** Operations run one after the other, each to completion; [None] if one
    of them raises. *)
Fixpoint run_trace (ops : list operation) (w : World) : option World :=
  match ops with
  | [] => Some w
  | op :: ops' =>
      match run op w with
      | Some w' => run_trace ops' w'
      | None => None
      end
  end.

(** The pairs that the [add_exchange] calls of a run write to session
    [sid], in call order. *)
Fixpoint writes_to (sid : string) (ops : list operation) : History :=
  match ops with
  | [] => []
  | AddExchange _ _ _ sid' q a :: ops' =>
      if decide (sid' = sid) then (q, a) :: writes_to sid ops'
      else writes_to sid ops'
  | _ :: ops' => writes_to sid ops'
  end.

(** The operation does not remove session [sid] from a service in state
    [s]: it is not a [clear_session] of it, the session is not expired at
    the clock reading of the sweep the operation runs, and a write to the
    session itself reads [max_history] and sweeps at most the timeout
    after its refresh. *)
Definition keeps_session (sid : string) (max_history : Z) (op : operation)
    (s : ChatMemoryService) : Prop :=
  match op with
  | AddExchange t1 t2 mh sid' _ _ =>
      if decide (sid' = sid)
      then mh = max_history ∧ t2 - t1 ≤ _session_timeout s
      else expired t2 s sid = false
  | ClearSession sid' => sid' ≠ sid
  | GetAllSessions now | SessionCount now | Sweep now => expired now s sid = false
  | GetHistory _ _ | GetLangchainFormat _ _ _ | GetSessionInfo _ _ => True
  end.

(** No operation of the run removes session [sid], each one judged in the
    state it starts from. *)
Fixpoint kept_through (sid : string) (max_history : Z) (ops : list operation)
    (w : World) : Prop :=
  match ops with
  | [] => True
  | op :: ops' =>
      keeps_session sid max_history op (self w) ∧
      match run op w with
      | Some w' => kept_through sid max_history ops' w'
      | None => False
      end
  end.

(** The pairs a run appends in place to the list object [l]: those of the
    [add_exchange] calls that start while their session is bound to [l]
    and whose sweep is at most the timeout after their refresh. *)
Fixpoint appended_to (l : nat) (ops : list operation) (w : World) : History :=
  match ops with
  | [] => []
  | op :: ops' =>
      match op with
      | AddExchange t1 t2 _ sid q a =>
          if decide (_memory (self w) !! sid = Some l ∧
                     t2 - t1 ≤ _session_timeout (self w))
          then [(q, a)] else []
      | _ => []
      end
      ++ match run op w with
         | Some w' => appended_to l ops' w'
         | None => []
         end
  end.

(** Whether a run contains an [add_exchange]. *)
Definition writes_to_any (ops : list operation) : bool :=
  existsb (fun op => match op with
                     | AddExchange _ _ _ _ _ _ => true
                     | _ => false
                     end) ops.

(** ** A schedule with the reaper in between *)

(** [get_history] when the cleanup thread's sweep runs between its
    membership test (line 81) and its timestamp write (line 82): the
    service takes no lock, so nothing keeps the sweep out. [now_reaper]
    is the sweep's clock reading. *)
Definition get_history_swept_between (now now_reaper : Z) (session_id : string)
  : M nat :=
  b <~ memory_contains session_id ;;
  _cleanup_inactive_sessions now_reaper ;;;
  (if b then last_activity_setitem session_id now else ret tt) ;;;
  memory_get session_id.

(** ** Basic facts *)

Lemma service_eq (s1 s2 : ChatMemoryService) :
  _memory s1 = _memory s2 →
  _last_activity s1 = _last_activity s2 →
  _session_timeout s1 = _session_timeout s2 →
  _cleanup_interval_seconds s1 = _cleanup_interval_seconds s2 →
  s1 = s2.
Proof. destruct s1, s2; simpl; intros; by subst. Qed.

Lemma world_eq (w1 w2 : World) :
  lists w1 = lists w2 → self w1 = self w2 → w1 = w2.
Proof. destruct w1, w2; simpl; intros; by subst. Qed.

Lemma expired_true now s sid :
  expired now s sid = true ↔
  ∃ t, _last_activity s !! sid = Some t ∧ _session_timeout s < now - t.
Proof.
  unfold expired. destruct (_last_activity s !! sid) as [t|].
  - rewrite bool_decide_eq_true. split; [eauto|]. by intros (? & [= <-] & ?).
  - split; [done|]. by intros (? & ? & ?).
Qed.

Lemma elem_of_inactive_sessions now s sid :
  sid ∈ inactive_sessions now s ↔ expired now s sid = true.
Proof.
  rewrite expired_true. unfold inactive_sessions.
  rewrite list_elem_of_fmap. split.
  - intros ([k t] & -> & Hin). apply list_elem_of_filter in Hin as [Hlt Hin].
    apply elem_of_map_to_list in Hin. eauto.
  - intros (t & Hla & Hlt). exists (sid, t). split; [done|].
    apply list_elem_of_filter. split; [done|]. by apply elem_of_map_to_list.
Qed.

Lemma NoDup_inactive_sessions now s : NoDup (inactive_sessions now s).
Proof.
  unfold inactive_sessions.
  apply (sublist_NoDup _ ((map_to_list (_last_activity s)).*1)).
  - apply NoDup_fst_map_to_list.
  - apply fmap_sublist, sublist_filter.
Qed.

(** One turn of the loop deletes the session from both dictionaries; it
    cannot raise when the session has a timestamp. *)
Lemma remove_inactive_run (sid : string) (w : World) :
  is_Some (_last_activity (self w) !! sid) →
  remove_inactive sid w = Returns tt
    {| lists := lists w;
       self := {| _memory := delete sid (_memory (self w));
                  _last_activity := delete sid (_last_activity (self w));
                  _session_timeout := _session_timeout (self w);
                  _cleanup_interval_seconds := _cleanup_interval_seconds (self w) |} |}.
Proof.
  intros [t Ht]. unfold remove_inactive, bind, memory_contains, memory_delitem,
    last_activity_delitem, ret.
  destruct (_memory (self w) !! sid) as [l|] eqn:Hm.
  - rewrite bool_decide_eq_true_2 by eauto. rewrite Hm. simpl. by rewrite Ht.
  - rewrite bool_decide_eq_false_2 by (by intros [? ?]). rewrite Ht.
    f_equal. apply world_eq; [done|]. apply service_eq; simpl; try done.
    symmetry. by apply delete_id.
Qed.

(** The whole loop, over any duplicate-free list of sessions that all
    have a timestamp. *)
Lemma for_each_remove_inactive (ks : list string) :
  NoDup ks →
  ∀ w : World,
    (∀ k, k ∈ ks → is_Some (_last_activity (self w) !! k)) →
    ∃ w' : World,
      for_each ks remove_inactive w = Returns tt w' ∧
      lists w' = lists w ∧
      _session_timeout (self w') = _session_timeout (self w) ∧
      _cleanup_interval_seconds (self w') = _cleanup_interval_seconds (self w) ∧
      (∀ j, _memory (self w') !! j =
            if decide (j ∈ ks) then None else _memory (self w) !! j) ∧
      (∀ j, _last_activity (self w') !! j =
            if decide (j ∈ ks) then None else _last_activity (self w) !! j).
Proof.
  induction 1 as [|k ks Hk Hnd IH]; intros w Hin.
  - exists w. simpl. unfold ret. repeat split; intros j; by rewrite decide_False by set_solver.
  - simpl. unfold bind. rewrite remove_inactive_run by (apply Hin; set_solver).
    edestruct IH as (w' & Hrun & Hl & Ht & Hc & Hm & Ha); [|rewrite Hrun].
    { simpl. intros j Hj. rewrite lookup_delete_ne by set_solver. apply Hin. set_solver. }
    exists w'. simpl in *. repeat split; try done.
    + intros j. rewrite Hm. destruct (decide (j = k)) as [->|Hne].
      * rewrite lookup_delete_eq. rewrite (decide_True _ _ (list_elem_of_here _ _)).
        by case_decide.
      * rewrite lookup_delete_ne by done.
        destruct (decide (j ∈ ks)), (decide (j ∈ k :: ks)); set_solver.
    + intros j. rewrite Ha. destruct (decide (j = k)) as [->|Hne].
      * rewrite lookup_delete_eq. rewrite (decide_True _ _ (list_elem_of_here _ _)).
        by case_decide.
      * rewrite lookup_delete_ne by done.
        destruct (decide (j ∈ ks)), (decide (j ∈ k :: ks)); set_solver.
Qed.

Lemma lookup_swept_last_activity now s sid :
  _last_activity (swept now s) !! sid =
  if expired now s sid then None else _last_activity s !! sid.
Proof.
  simpl. apply option_eq; intros t. rewrite map_lookup_filter_Some. simpl.
  unfold expired. destruct (_last_activity s !! sid) as [t'|]; [|naive_solver].
  case_bool_decide; naive_solver.
Qed.

Lemma lookup_swept_memory now s sid :
  _memory (swept now s) !! sid =
  if expired now s sid then None else _memory s !! sid.
Proof.
  simpl. apply option_eq; intros l. rewrite map_lookup_filter_Some. simpl.
  destruct (expired now s sid); naive_solver.
Qed.

(** The sweep always returns: the loop never reaches a missing key. *)
Lemma cleanup_returns (now : Z) (w : World) :
  _cleanup_inactive_sessions now w =
  Returns (length (inactive_sessions now (self w)))
          {| lists := lists w; self := swept now (self w) |}.
Proof.
  unfold _cleanup_inactive_sessions, bind.
  destruct (for_each_remove_inactive (inactive_sessions now (self w))
              (NoDup_inactive_sessions now (self w)) w)
    as (w' & -> & Hl & Ht & Hc & Hm & Ha).
  { intros k Hk. apply elem_of_inactive_sessions, expired_true in Hk
      as (t & -> & _). eauto. }
  unfold ret. f_equal. apply world_eq; [done|]. simpl.
  apply service_eq; try done.
  - apply map_eq; intros j. rewrite Hm, lookup_swept_memory.
    case_decide as Hj; rewrite elem_of_inactive_sessions in Hj;
      destruct (expired now (self w) j); congruence.
  - apply map_eq; intros j. rewrite Ha, lookup_swept_last_activity.
    case_decide as Hj; rewrite elem_of_inactive_sessions in Hj;
      destruct (expired now (self w) j); congruence.
Qed.

(** The number the sweep returns is the number of timestamps it drops. *)
Lemma length_inactive_sessions now s :
  (size (_last_activity s) =
   length (inactive_sessions now s) + size (_last_activity (swept now s)))%nat.
Proof.
  unfold inactive_sessions. rewrite length_fmap. simpl.
  rewrite <- !length_map_to_list.
  set (P := fun p : string * Z => _session_timeout s < now - p.2).
  rewrite <- (filter_app_complement P (map_to_list (_last_activity s))) at 1.
  rewrite length_app. f_equal.
  apply Permutation_length, NoDup_Permutation.
  - apply NoDup_filter, NoDup_map_to_list.
  - apply NoDup_map_to_list.
  - intros [k t]. rewrite list_elem_of_filter, !elem_of_map_to_list.
    rewrite map_lookup_filter_Some. naive_solver.
Qed.

(** ** The inactivity sweep *)

(** C2. The sweep reads the clock once ([now]); it returns, having removed
    from both dictionaries exactly the sessions whose timestamp [t]
    satisfies [now - t > session_timeout]; the number returned is the
    number of sessions removed. A session at exactly [now - session_timeout]
    stays, one a second older goes. *)
Theorem cleanup_removes_exactly_expired (now : Z) (w : World) :
  let s := self w in
  let n := length (inactive_sessions now s) in
  _cleanup_inactive_sessions now w =
    Returns n {| lists := lists w; self := swept now s |} ∧
  (∀ sid, expired now s sid = true ↔
          ∃ t, _last_activity s !! sid = Some t ∧ now - t > _session_timeout s) ∧
  (∀ sid, _last_activity (swept now s) !! sid =
          if expired now s sid then None else _last_activity s !! sid) ∧
  (∀ sid, _memory (swept now s) !! sid =
          if expired now s sid then None else _memory s !! sid) ∧
  (size (_last_activity s) = n + size (_last_activity (swept now s)))%nat ∧
  (∀ sid, _last_activity s !! sid = Some (now - _session_timeout s) →
          _last_activity (swept now s) !! sid = Some (now - _session_timeout s) ∧
          _memory (swept now s) !! sid = _memory s !! sid) ∧
  (∀ sid, _last_activity s !! sid =
            Some (now - _session_timeout s - timedelta_seconds 1) →
          _last_activity (swept now s) !! sid = None ∧
          _memory (swept now s) !! sid = None).
Proof.
  intros s n. split_and!.
  - apply cleanup_returns.
  - intros sid. rewrite expired_true. split; intros (t & ? & ?); exists t; split; auto; lia.
  - apply lookup_swept_last_activity.
  - apply lookup_swept_memory.
  - apply length_inactive_sessions.
  - intros sid Ht. rewrite lookup_swept_last_activity, lookup_swept_memory.
    unfold expired. rewrite Ht. rewrite bool_decide_eq_false_2 by lia. done.
  - intros sid Ht. rewrite lookup_swept_last_activity, lookup_swept_memory.
    unfold expired. rewrite Ht.
    rewrite bool_decide_eq_true_2 by (unfold timedelta_seconds; lia). done.
Qed.

Lemma cleanup_removes_exactly_expired_witness :
  let w := {| lists := [[("q", "a")]; []];
              self := {| _memory := <["old" := 1%nat]> (<["edge" := 0%nat]> ∅);
                         _last_activity :=
                           <["old" := -1000000]> (<["edge" := 0]> ∅);
                         _session_timeout := timedelta_minutes 30;
                         _cleanup_interval_seconds := 60 |} |} in
  ∃ w' : World,
    _cleanup_inactive_sessions (timedelta_minutes 30) w = Returns 1%nat w' ∧
    _last_activity (self w') !! "edge" = Some 0 ∧
    _memory (self w') !! "edge" = Some 0%nat ∧
    _last_activity (self w') !! "old" = None ∧
    _memory (self w') !! "old" = None.
Proof.
  intros w.
  destruct (cleanup_removes_exactly_expired (timedelta_minutes 30) w)
    as (Hrun & _ & _ & _ & _ & Hedge & Hold).
  eexists. split; [exact Hrun|].
  destruct (Hedge "edge") as [H1 H2]; [vm_compute; reflexivity|].
  destruct (Hold "old") as [H3 H4]; [vm_compute; reflexivity|].
  split; [exact H1|]. split; [exact (eq_trans H2 ltac:(vm_compute; reflexivity))|].
  split; [exact H3|exact H4].
Defined.

(** ** Closed forms of the operations *)

Lemma add_exchange_run t1 t2 mh sid q a (w : World) :
  let s2 := refreshed_swept t1 t2 sid (self w) in
  let l := default (length (lists w)) (_memory s2 !! sid) in
  let heap1 := match _memory s2 !! sid with
               | Some _ => lists w
               | None => lists w ++ [[]]
               end in
  let heap2 := alter (fun h => h ++ [(q, a)]) l heap1 in
  let h := default [] (heap2 !! l) in
  add_exchange t1 t2 mh sid q a w =
  Returns tt
    (if mh <? Z.of_nat (length h) then
       {| lists := heap2 ++ [slice_from (- mh) h];
          self := with_memory (<[sid := length heap2]> (_memory s2)) s2 |}
     else
       {| lists := heap2;
          self := with_memory (<[sid := l]> (_memory s2)) s2 |}).
Proof.
  intros s2 l heap1 heap2 h.
  unfold add_exchange, bind at 1. unfold last_activity_setitem.
  unfold bind at 1. rewrite cleanup_returns. simpl lists. simpl self.
  fold (refreshed_swept t1 t2 sid (self w)). fold s2.
  subst l heap1 heap2 h. generalize s2. clear s2. intros s2.
  unfold bind, memory_getitem, list_new, memory_setitem, list_append,
    list_read, ret; simpl.
  destruct (_memory s2 !! sid) as [l|] eqn:Hm; simpl.
  - rewrite Hm. simpl.
    destruct (mh <? _) eqn:Hlt; simpl.
    + rewrite Hm. done.
    + f_equal. apply world_eq; [done|]. apply service_eq; try done.
      simpl. symmetry. by apply insert_id.
  - rewrite lookup_insert_eq. simpl.
    destruct (mh <? _) eqn:Hlt; simpl.
    + rewrite lookup_insert_eq. f_equal. apply world_eq; [done|].
      apply service_eq; try done. simpl. by rewrite insert_insert_eq.
    + done.
Qed.

Lemma get_history_run now sid (w : World) :
  get_history now sid w =
  match _memory (self w) !! sid with
  | Some l =>
      Returns l {| lists := lists w;
                   self := with_last_activity
                             (<[sid := now]> (_last_activity (self w))) (self w) |}
  | None =>
      Returns (length (lists w)) {| lists := lists w ++ [[]]; self := self w |}
  end.
Proof.
  unfold get_history, bind, memory_contains, memory_get, last_activity_setitem,
    list_new, ret.
  destruct (_memory (self w) !! sid) as [l|] eqn:Hm.
  - rewrite bool_decide_eq_true_2 by eauto. simpl. by rewrite Hm.
  - rewrite bool_decide_eq_false_2 by (by intros [? ?]). by rewrite Hm.
Qed.

Lemma clear_session_run sid (w : World) :
  clear_session sid w =
  Returns (bool_decide (session_exists (self w) sid))
          {| lists := lists w; self := cleared sid (self w) |}.
Proof.
  assert (Hex : bool_decide (session_exists (self w) sid) =
                bool_decide (is_Some (_memory (self w) !! sid))
                || bool_decide (is_Some (_last_activity (self w) !! sid))).
  { unfold session_exists. repeat case_bool_decide; simpl; tauto. }
  rewrite Hex. clear Hex.
  unfold clear_session, bind, memory_contains, last_activity_contains,
    memory_delitem, last_activity_delitem, ret.
  destruct (_memory (self w) !! sid) as [l|] eqn:Hm;
    destruct (_last_activity (self w) !! sid) as [t|] eqn:Ha;
    repeat (progress (simpl; rewrite ?Hm, ?Ha; membership));
    try done; f_equal; (apply world_eq; [done|]); apply service_eq; try done;
    simpl; symmetry; by apply delete_id.
Qed.

Lemma append_messages_spec (h : History) (acc : list Message) :
  append_messages acc h = acc ++ messages_of h.
Proof.
  revert acc. induction h as [|e h IH]; intros acc; simpl.
  - by rewrite app_nil_r.
  - unfold append_messages in *. simpl. rewrite IH.
    by rewrite <- !app_assoc.
Qed.

Lemma get_langchain_format_run now1 now2 sid (w : World) :
  get_langchain_format now1 now2 sid w =
  match _memory (self w) !! sid with
  | Some l =>
      Returns (messages_of (deref w l))
        {| lists := lists w;
           self := with_last_activity
                     (<[sid := now2]> (_last_activity (self w))) (self w) |}
  | None =>
      Returns [] {| lists := lists w ++ [[]]; self := self w |}
  end.
Proof.
  unfold get_langchain_format, bind at 1. unfold memory_contains.
  destruct (_memory (self w) !! sid) as [l|] eqn:Hm.
  - rewrite bool_decide_eq_true_2 by eauto.
    unfold bind, last_activity_setitem. rewrite get_history_run. simpl.
    rewrite Hm. unfold list_read, ret. simpl.
    rewrite append_messages_spec. simpl. f_equal.
    apply world_eq; [done|]. apply service_eq; try done.
    simpl. by rewrite insert_insert_eq.
  - rewrite bool_decide_eq_false_2 by (by intros [? ?]).
    unfold bind, ret. rewrite get_history_run, Hm.
    unfold list_read. simpl.
    by rewrite list_lookup_middle.
Qed.

Lemma get_all_sessions_run now (w : World) :
  get_all_sessions now w =
  Returns (_memory (swept now (self w)))
          {| lists := lists w; self := swept now (self w) |}.
Proof. unfold get_all_sessions, bind. by rewrite cleanup_returns. Qed.

Lemma session_count_run now (w : World) :
  session_count now w =
  Returns (size (_memory (swept now (self w))))
          {| lists := lists w; self := swept now (self w) |}.
Proof. unfold session_count, bind. by rewrite cleanup_returns. Qed.

Lemma get_session_info_run now sid (w : World) :
  get_session_info now sid w =
  Returns
    match _memory (self w) !! sid with
    | None => NoSession
    | Some l =>
        Info (length (deref w l)) (_last_activity (self w) !! sid)
             match _last_activity (self w) !! sid with
             | Some t => bool_decide (now - t < _session_timeout (self w))
             | None => false
             end
    end w.
Proof.
  unfold get_session_info, bind, memory_contains, memory_getitem, list_read,
    last_activity_get, last_activity_contains, last_activity_getitem, ret.
  destruct (_memory (self w) !! sid) as [l|] eqn:Hm.
  - rewrite bool_decide_eq_true_2 by eauto. simpl. rewrite Hm.
    destruct (_last_activity (self w) !! sid) as [t|] eqn:Ha.
    + rewrite bool_decide_eq_true_2 by eauto. by rewrite Ha.
    + by rewrite bool_decide_eq_false_2 by (by intros [? ?]).
  - by rewrite bool_decide_eq_false_2 by (by intros [? ?]).
Qed.

(** ** Bounded history *)

Lemma truncate_last_n (mh : Z) (h : History) :
  0 < mh → truncate mh h = last_n (Z.to_nat mh) h.
Proof.
  intros Hpos. unfold truncate, last_n, slice_from.
  destruct (mh <? Z.of_nat (length h)) eqn:Hlt.
  - apply Z.ltb_lt in Hlt. rewrite (proj2 (Z.ltb_lt (- mh) 0)) by lia.
    f_equal. lia.
  - apply Z.ltb_ge in Hlt. replace (length h - Z.to_nat mh)%nat with 0%nat by lia.
    done.
Qed.

Lemma last_n_snoc (m : nat) (prev : History) (x : Exchange) :
  (0 < m)%nat → last_n m (last_n m prev ++ [x]) = last_n m (prev ++ [x]).
Proof.
  intros Hm. unfold last_n. rewrite !length_app, length_drop. simpl.
  destruct (decide (length prev ≤ m)%nat) as [Hle|Hgt].
  - replace (length prev - m)%nat with 0%nat by lia. simpl.
    f_equal. lia.
  - rewrite !drop_app_le by (rewrite ?length_drop; lia).
    rewrite drop_drop. f_equal. f_equal. lia.
Qed.

Lemma not_expired_after_refresh t1 t2 sid (s : ChatMemoryService) :
  t2 - t1 ≤ _session_timeout s →
  expired t2 (with_last_activity (<[sid := t1]> (_last_activity s)) s) sid = false.
Proof.
  intros Hle. unfold expired. simpl. rewrite lookup_insert_eq.
  by rewrite bool_decide_eq_false_2 by lia.
Qed.

Lemma memory_refreshed_swept_same t1 t2 sid (s : ChatMemoryService) :
  t2 - t1 ≤ _session_timeout s →
  _memory (refreshed_swept t1 t2 sid s) !! sid = _memory s !! sid.
Proof.
  intros Hle. unfold refreshed_swept. rewrite lookup_swept_memory.
  by rewrite not_expired_after_refresh.
Qed.

(** One write, when the call's own sweep does not evict the session. *)
Lemma add_exchange_history t1 t2 mh sid q a (w : World) (h : History) :
  t2 - t1 ≤ _session_timeout (self w) →
  has_history w sid h →
  ∃ w', add_exchange t1 t2 mh sid q a w = Returns tt w' ∧
        _session_timeout (self w') = _session_timeout (self w) ∧
        ∃ l, _memory (self w') !! sid = Some l ∧
             lists w' !! l = Some (truncate mh (h ++ [(q, a)])).
Proof.
  intros Hle Hh. rewrite add_exchange_run. cbv zeta.
  pose proof (memory_refreshed_swept_same t1 t2 sid (self w) Hle) as Hsame.
  unfold has_history in Hh. rewrite Hsame.
  assert (Hread : ∃ l heap,
    l = default (length (lists w)) (_memory (self w) !! sid) ∧
    heap = match _memory (self w) !! sid with
           | Some _ => lists w
           | None => lists w ++ [[]]
           end ∧
    alter (fun h => h ++ [(q, a)]) l heap !! l = Some (h ++ [(q, a)])).
  { eexists _, _. split; [done|]. split; [done|].
    destruct (_memory (self w) !! sid) as [l|]; cbv [from_option id];
      rewrite list_lookup_alter_eq.
    - by rewrite Hh.
    - subst h. by rewrite list_lookup_middle. }
  destruct Hread as (l & heap & <- & <- & Hread). rewrite Hread. simpl.
  unfold truncate.
  destruct (mh <? Z.of_nat (length (h ++ [(q, a)]))); eexists; (split; [done|]);
    simpl; (split; [done|]).
  - exists (length (alter (fun h0 => h0 ++ [(q, a)]) l heap)).
    rewrite lookup_insert_eq. split; [done|]. by rewrite list_lookup_middle.
  - exists l. rewrite lookup_insert_eq. done.
Qed.

(** A write followed at once by a read gives back the pair written. *)
Example add_exchange_then_get_history :
  ∃ (l : nat) (w' : World),
    (add_exchange 0 1 3 "s1" "q" "a" ;;; get_history 2 "s1") new_world
      = Returns l w' ∧
    deref w' l = [("q", "a")].
Proof. eexists _, _. split; vm_compute; reflexivity. Qed.

(** With [max_history = 0] the slice [lst[-0:]] is the whole list, so
    nothing is dropped: the bound needs a positive [max_history]. *)
Example truncate_zero_keeps_all :
  truncate 0 [("q1", "a1"); ("q2", "a2")] = [("q1", "a1"); ("q2", "a2")].
Proof. reflexivity. Qed.

(** ** The two dictionaries keep the same keys *)

Lemma maps_agree_swept now (s : ChatMemoryService) :
  maps_agree s → maps_agree (swept now s).
Proof.
  intros Hs sid. rewrite lookup_swept_memory, lookup_swept_last_activity.
  destruct (expired now s sid); [|apply Hs]. split; by intros [? ?].
Qed.

Lemma timestamps_have_history_swept now (s : ChatMemoryService) :
  timestamps_have_history s → timestamps_have_history (swept now s).
Proof.
  intros Hs sid. rewrite lookup_swept_memory, lookup_swept_last_activity.
  destruct (expired now s sid); [|apply Hs]. by intros [? ?].
Qed.

(** Away from the session being written, the refresh and the sweep of
    [add_exchange] act like a sweep of the old state. *)
Lemma refreshed_swept_other t1 t2 sid (s : ChatMemoryService) (j : string) :
  j ≠ sid →
  _memory (refreshed_swept t1 t2 sid s) !! j = _memory (swept t2 s) !! j ∧
  _last_activity (refreshed_swept t1 t2 sid s) !! j = _last_activity (swept t2 s) !! j.
Proof.
  intros Hne. unfold refreshed_swept.
  rewrite !lookup_swept_memory, !lookup_swept_last_activity.
  unfold expired. simpl. by rewrite !lookup_insert_ne.
Qed.

Lemma add_exchange_maps t1 t2 mh sid q a (w : World) :
  ∃ (w' : World) (l : nat),
    add_exchange t1 t2 mh sid q a w = Returns tt w' ∧
    _memory (self w') = <[sid := l]> (_memory (refreshed_swept t1 t2 sid (self w))) ∧
    _last_activity (self w') = _last_activity (refreshed_swept t1 t2 sid (self w)) ∧
    _session_timeout (self w') = _session_timeout (self w).
Proof.
  rewrite add_exchange_run. cbv zeta.
  match goal with |- context [if ?b then _ else _] => destruct b end;
    eexists _, _; (split; [done|]); simpl; done.
Qed.

Lemma last_activity_refreshed_swept t1 t2 sid (s : ChatMemoryService) :
  _last_activity (refreshed_swept t1 t2 sid s) !! sid =
  if bool_decide (_session_timeout s < t2 - t1) then None else Some t1.
Proof.
  unfold refreshed_swept. rewrite lookup_swept_last_activity.
  unfold expired. simpl. rewrite lookup_insert_eq.
  by case_bool_decide.
Qed.

Lemma maps_agree_insert_both (s : ChatMemoryService) sid (t : Z) :
  maps_agree s → is_Some (_memory s !! sid) →
  maps_agree (with_last_activity (<[sid := t]> (_last_activity s)) s).
Proof.
  intros Hs Hm j. simpl. destruct (decide (j = sid)) as [->|Hne].
  - rewrite lookup_insert_eq. split; eauto.
  - rewrite lookup_insert_ne by done. apply Hs.
Qed.

Lemma maps_agree_cleared sid (s : ChatMemoryService) :
  maps_agree s → maps_agree (cleared sid s).
Proof.
  intros Hs j. simpl. destruct (decide (j = sid)) as [->|Hne].
  - rewrite !lookup_delete_eq. split; by intros [? ?].
  - rewrite !lookup_delete_ne by done. apply Hs.
Qed.

(** X19. Every operation returns and, started with the two dictionaries
    on the same keys, leaves them on the same keys: unconditionally for
    [get_history], [clear_session], [get_langchain_format],
    [get_all_sessions], [session_count], [get_session_info] and the
    sweep, and for [add_exchange] when its sweep reads the clock at most
    the timeout after its refresh. *)
Theorem operations_keep_maps_agreeing (op : operation) (w : World) :
  maps_agree (self w) →
  sweep_in_time op (self w) →
  ∃ w' : World, run op w = Some w' ∧ maps_agree (self w').
Proof.
  intros Hw Hop.
  destruct op as [t1 t2 mh sid q a|now sid|sid|now1 now2 sid|now|now|now sid|now];
    simpl in *.
  - destruct (add_exchange_maps t1 t2 mh sid q a w)
      as (w' & l & -> & Hm & Ha & _).
    exists w'. split; [done|]. intros j. rewrite Hm, Ha.
    destruct (decide (j = sid)) as [->|Hne].
    + rewrite lookup_insert_eq, last_activity_refreshed_swept.
      rewrite bool_decide_eq_false_2 by lia. split; eauto.
    + rewrite lookup_insert_ne by done.
      destruct (refreshed_swept_other t1 t2 sid (self w) j Hne)
        as [-> ->].
      by apply maps_agree_swept.
  - rewrite get_history_run.
    destruct (_memory (self w) !! sid) eqn:Hm; eexists; (split; [done|]); simpl.
    + apply maps_agree_insert_both; [done|]. rewrite Hm. eauto.
    + done.
  - rewrite clear_session_run. eexists; split; [done|]. simpl.
    by apply maps_agree_cleared.
  - rewrite get_langchain_format_run.
    destruct (_memory (self w) !! sid) eqn:Hm; eexists; (split; [done|]); simpl.
    + apply maps_agree_insert_both; [done|]. rewrite Hm. eauto.
    + done.
  - rewrite get_all_sessions_run. eexists; split; [done|]. simpl.
    by apply maps_agree_swept.
  - rewrite session_count_run. eexists; split; [done|]. simpl.
    by apply maps_agree_swept.
  - rewrite get_session_info_run. eexists; split; [done|]. done.
  - rewrite cleanup_returns. eexists; split; [done|]. simpl.
    by apply maps_agree_swept.
Qed.

Lemma maps_agree_init (minutes seconds : Z) : maps_agree (init minutes seconds).
Proof. intros sid. simpl. rewrite !lookup_empty. split; by intros [? ?]. Qed.

(** C3 fails on the code. On a new service with a 30 minute timeout, an
    [add_exchange] whose sweep reads the clock 31 minutes after its
    refresh evicts the session it has just stamped and then creates its
    history again: the two dictionaries are on the same keys before the
    call, and after it the session has a history entry and no
    timestamp. *)
Lemma add_exchange_late_sweep_breaks_agreement :
  maps_agree (init 30 60) ∧
  ∃ w' : World,
    run (AddExchange 0 (timedelta_minutes 31) 3 "s" "q" "a")
        {| lists := []; self := init 30 60 |} = Some w' ∧
    _memory (self w') !! "s" = Some 0%nat ∧
    _last_activity (self w') !! "s" = None ∧
    ¬ maps_agree (self w').
Proof.
  split; [apply maps_agree_init|].
  eexists. split; [vm_compute; reflexivity|].
  split; [vm_compute; reflexivity|]. split; [vm_compute; reflexivity|].
  intros H. destruct (proj1 (H "s")) as [t Ht].
  - exists 0%nat. vm_compute. reflexivity.
  - vm_compute in Ht. discriminate.
Qed.

Lemma operations_keep_maps_agreeing_witness :
  ∃ w' : World,
    run (AddExchange 0 5 3 "s" "q" "a") {| lists := []; self := init 30 60 |}
      = Some w' ∧
    maps_agree (self w').
Proof.
  apply (operations_keep_maps_agreeing
           (AddExchange 0 5 3 "s" "q" "a") {| lists := []; self := init 30 60 |}).
  - apply maps_agree_init.
  - vm_compute. discriminate.
Defined.

(** ** Invariants of the reachable worlds *)

Lemma timestamps_have_history_run (op : operation) (w w' : World) :
  timestamps_have_history (self w) → run op w = Some w' →
  timestamps_have_history (self w').
Proof.
  intros Hw.
  destruct op as [t1 t2 mh sid q a|now sid|sid|now1 now2 sid|now|now|now sid|now];
    simpl.
  - destruct (add_exchange_maps t1 t2 mh sid q a w) as (w1 & l & -> & Hm & Ha & _).
    intros [= <-] j. rewrite Hm, Ha. destruct (decide (j = sid)) as [->|Hne].
    + rewrite lookup_insert_eq. eauto.
    + rewrite lookup_insert_ne by done.
      destruct (refreshed_swept_other t1 t2 sid (self w) j Hne) as [-> ->].
      by apply timestamps_have_history_swept.
  - rewrite get_history_run.
    destruct (_memory (self w) !! sid) eqn:Hm; intros [= <-]; [|done].
    intros j. simpl. destruct (decide (j = sid)) as [->|Hne].
    + rewrite Hm. eauto.
    + rewrite lookup_insert_ne by done. apply Hw.
  - rewrite clear_session_run. intros [= <-] j. simpl.
    destruct (decide (j = sid)) as [->|Hne].
    + rewrite !lookup_delete_eq. by intros [? ?].
    + rewrite !lookup_delete_ne by done. apply Hw.
  - rewrite get_langchain_format_run.
    destruct (_memory (self w) !! sid) eqn:Hm; intros [= <-]; [|done].
    intros j. simpl. destruct (decide (j = sid)) as [->|Hne].
    + rewrite Hm. eauto.
    + rewrite lookup_insert_ne by done. apply Hw.
  - rewrite get_all_sessions_run. intros [= <-].
    by apply timestamps_have_history_swept.
  - rewrite session_count_run. intros [= <-].
    by apply timestamps_have_history_swept.
  - rewrite get_session_info_run. by intros [= <-].
  - rewrite cleanup_returns. intros [= <-].
    by apply timestamps_have_history_swept.
Qed.

Lemma reachable_timestamps_have_history (w : World) :
  reachable w → timestamps_have_history (self w).
Proof.
  induction 1 as [minutes seconds|op w w' _ IH Hrun].
  - intros sid. simpl. rewrite lookup_empty. by intros [? ?].
  - by eapply timestamps_have_history_run.
Qed.

(** In a reachable world a session exists exactly when it has a history
    entry, which is what [get_session_info] tests. *)
Lemma reachable_session_exists (w : World) (sid : string) :
  reachable w →
  session_exists (self w) sid ↔ is_Some (_memory (self w) !! sid).
Proof.
  intros Hw. unfold session_exists. split; [|by left].
  intros [?|Ha]; [done|]. by apply (reachable_timestamps_have_history w Hw).
Qed.

(** ** [clear_session] *)

(** C4. [clear_session] returns, true exactly when the session had a
    history entry or a timestamp; afterwards the session has neither and
    the other sessions are as before; on a session that does not exist it
    returns false and changes nothing, so a second clear returns false;
    after a clear, [get_history] of that id is empty and
    [get_session_info] reports that the session does not exist. *)
Theorem clear_session_spec (sid : string) (now : Z) (w : World) :
  let w1 := {| lists := lists w; self := cleared sid (self w) |} in
  clear_session sid w = Returns (bool_decide (session_exists (self w) sid)) w1 ∧
  _memory (self w1) !! sid = None ∧
  _last_activity (self w1) !! sid = None ∧
  (∀ j, j ≠ sid →
        _memory (self w1) !! j = _memory (self w) !! j ∧
        _last_activity (self w1) !! j = _last_activity (self w) !! j) ∧
  (¬ session_exists (self w) sid → clear_session sid w = Returns false w) ∧
  clear_session sid w1 = Returns false w1 ∧
  (∃ (l : nat) (w2 : World),
      get_history now sid w1 = Returns l w2 ∧ deref w2 l = [] ∧ self w2 = self w1) ∧
  get_session_info now sid w1 = Returns NoSession w1.
Proof.
  intros w1.
  assert (Hm1 : _memory (self w1) !! sid = None) by apply lookup_delete_eq.
  assert (Ha1 : _last_activity (self w1) !! sid = None) by apply lookup_delete_eq.
  assert (Hno : ∀ w0 : World,
            ¬ session_exists (self w0) sid → clear_session sid w0 = Returns false w0).
  { intros w0 Hn. rewrite clear_session_run, bool_decide_eq_false_2 by done.
    f_equal. apply world_eq; [done|].
    apply service_eq; try done; simpl; apply delete_id;
      apply eq_None_not_Some; intros ?; apply Hn;
      unfold session_exists; tauto. }
  split_and!.
  - apply clear_session_run.
  - exact Hm1.
  - exact Ha1.
  - intros j Hne. simpl. by rewrite !lookup_delete_ne.
  - apply Hno.
  - apply Hno. unfold session_exists. rewrite Hm1, Ha1. by intros [[? ?]|[? ?]].
  - rewrite get_history_run, Hm1. eexists _, _. split; [done|].
    split; [|done]. unfold deref. simpl. by rewrite list_lookup_middle.
  - by rewrite get_session_info_run, Hm1.
Qed.

Lemma run_first_write :
  run (AddExchange 0 1 3 "s1" "q" "a") new_world = Some one_session.
Proof. vm_compute. reflexivity. Qed.

Lemma reachable_one_session : reachable one_session.
Proof.
  apply (reachable_run (AddExchange 0 1 3 "s1" "q" "a") new_world).
  - apply reachable_init.
  - apply run_first_write.
Qed.

Lemma clear_session_spec_witness :
  ∃ w1 : World,
    clear_session "s1" one_session = Returns true w1 ∧
    clear_session "s1" w1 = Returns false w1 ∧
    get_session_info 5 "s1" w1 = Returns NoSession w1.
Proof.
  destruct (clear_session_spec "s1" 5 one_session)
    as (H1 & _ & _ & _ & _ & H2 & _ & H3).
  eexists. split; [exact H1|]. split; [exact H2|exact H3].
Defined.

(** ** [get_history] *)

(** C5. On a session without a history entry [get_history] returns a new
    empty list and leaves the service and every existing list object as
    they were, so a following [session_count] gives the same number; on a
    session with one it sets the timestamp to the clock reading and
    returns the stored list. *)
Theorem get_history_spec (now : Z) (sid : string) (w : World) :
  (_memory (self w) !! sid = None →
   ∃ (l : nat) (w' : World),
     get_history now sid w = Returns l w' ∧
     deref w' l = [] ∧
     self w' = self w ∧
     (∀ l0 h, lists w !! l0 = Some h → lists w' !! l0 = Some h) ∧
     ∀ now' : Z, ∃ (n : nat) (w1 w2 : World),
       session_count now' w = Returns n w1 ∧
       session_count now' w' = Returns n w2 ∧
       self w1 = self w2) ∧
  (∀ l : nat, _memory (self w) !! sid = Some l →
   ∃ w' : World,
     get_history now sid w = Returns l w' ∧
     lists w' = lists w ∧
     _memory (self w') = _memory (self w) ∧
     _last_activity (self w') = <[sid := now]> (_last_activity (self w)) ∧
     _session_timeout (self w') = _session_timeout (self w)).
Proof.
  split.
  - intros Hm. rewrite get_history_run, Hm. eexists _, _. split; [done|].
    split_and!.
    + unfold deref. simpl. by rewrite list_lookup_middle.
    + done.
    + intros l0 h Hl0. simpl. by apply lookup_app_l_Some.
    + intros now'. rewrite !session_count_run. eauto 10.
  - intros l Hm. rewrite get_history_run, Hm. eexists. by split.
Qed.

Lemma get_history_spec_witness :
  ∃ (l : nat) (w' : World),
    get_history 7 "nonexistent" {| lists := []; self := init 30 60 |}
      = Returns l w' ∧
    deref w' l = [] ∧
    self w' = init 30 60.
Proof.
  destruct (proj1 (get_history_spec 7 "nonexistent"
                     {| lists := []; self := init 30 60 |}) eq_refl)
    as (l & w' & H1 & H2 & H3 & _).
  exists l, w'. split; [exact H1|]. split; [exact H2|exact H3].
Defined.

(** ** [get_langchain_format] *)

Lemma length_messages_of (h : History) :
  length (messages_of h) = (2 * length h)%nat.
Proof. induction h as [|e h IH]; simpl; [done|]. rewrite IH. lia. Qed.

Lemma lookup_messages_of (h : History) (i : nat) (q a : string) :
  h !! i = Some (q, a) →
  messages_of h !! (2 * i)%nat = Some (HumanMessage q) ∧
  messages_of h !! (2 * i + 1)%nat = Some (AIMessage a).
Proof.
  revert i. induction h as [|e h IH]; intros i Hi; [done|].
  destruct i as [|i]; simpl in *.
  - by injection Hi as ->.
  - replace (i + S (i + 0))%nat with (S (2 * i)) by lia.
    replace (i + S (i + 0) + 1)%nat with (S (2 * i + 1)) by lia.
    simpl. apply IH, Hi.
Qed.

(** C6. For a session whose history is [h], [get_langchain_format] returns
    [2 * length h] messages: at position [2 i] the human message with the
    question of exchange [i], at position [2 i + 1] the assistant message
    with its answer. *)
Theorem get_langchain_format_spec
    (now1 now2 : Z) (sid : string) (w : World) (l : nat) (h : History) :
  _memory (self w) !! sid = Some l →
  lists w !! l = Some h →
  ∃ (messages : list Message) (w' : World),
    get_langchain_format now1 now2 sid w = Returns messages w' ∧
    length messages = (2 * length h)%nat ∧
    (∀ (i : nat) (q a : string),
        h !! i = Some (q, a) →
        messages !! (2 * i)%nat = Some (HumanMessage q) ∧
        messages !! (2 * i + 1)%nat = Some (AIMessage a)) ∧
    messages =
      flat_map (fun e : Exchange => [HumanMessage e.1; AIMessage e.2]) h.
Proof.
  intros Hm Hl. rewrite get_langchain_format_run, Hm.
  unfold deref. rewrite Hl. simpl. eexists _, _. split; [done|].
  split; [apply length_messages_of|]. split; [|done].
  intros i q a. apply lookup_messages_of.
Qed.

Lemma get_langchain_format_spec_witness :
  ∃ w' : World,
    get_langchain_format 8 9 "s" two_exchanges
    = Returns [HumanMessage "q1"; AIMessage "a1"; HumanMessage "q2"; AIMessage "a2"]
              w'.
Proof.
  destruct (get_langchain_format_spec 8 9 "s" two_exchanges
              0%nat [("q1", "a1"); ("q2", "a2")]
              ltac:(vm_compute; reflexivity) ltac:(vm_compute; reflexivity))
    as (messages & w' & Hrun & _ & _ & ->).
  exists w'. exact Hrun.
Defined.

(** ** [get_session_info] *)

(** C8. In every reachable world [get_session_info] reports a session that
    does not exist as such; for one that exists it reports the length of
    its history, the stored timestamp, and as [is_active] whether the
    clock reading is less than the timeout after that timestamp. *)
Theorem get_session_info_spec (now : Z) (sid : string) (w : World) :
  reachable w →
  (¬ session_exists (self w) sid →
   get_session_info now sid w = Returns NoSession w) ∧
  (session_exists (self w) sid →
   ∃ (l : nat) (active : bool),
     _memory (self w) !! sid = Some l ∧
     get_session_info now sid w =
       Returns (Info (length (deref w l)) (_last_activity (self w) !! sid) active) w ∧
     (active = true ↔
      ∃ t : Z, _last_activity (self w) !! sid = Some t ∧
               now - t < _session_timeout (self w))).
Proof.
  intros Hw. rewrite (reachable_session_exists w sid Hw).
  rewrite get_session_info_run. split.
  - intros Hn. destruct (_memory (self w) !! sid); [|done].
    exfalso. apply Hn. eauto.
  - intros [l Hl]. rewrite Hl. eexists l, _. split; [done|]. split; [done|].
    destruct (_last_activity (self w) !! sid) as [t|].
    + rewrite bool_decide_eq_true. split; [eauto|]. by intros (? & [= <-] & ?).
    + split; [done|]. by intros (? & ? & ?).
Qed.

Lemma get_session_info_spec_witness :
  get_session_info (timedelta_minutes 30 - 1) "s1" one_session
    = Returns (Info 1 (Some 0) true) one_session ∧
  get_session_info (timedelta_minutes 30) "s1" one_session
    = Returns (Info 1 (Some 0) false) one_session ∧
  get_session_info 2 "s2" one_session = Returns NoSession one_session.
Proof.
  split; [vm_compute; reflexivity|]. split; [vm_compute; reflexivity|].
  apply (get_session_info_spec 2 "s2" one_session reachable_one_session).
  intros [[l Hl]|[t Ht]]; [vm_compute in Hl|vm_compute in Ht]; discriminate.
Defined.

(** C10. [get_session_info] returns and leaves the world as it found it;
    [get_history] and [get_langchain_format] on a session with a history
    entry set its timestamp to their clock reading instead. *)
Theorem get_session_info_reads_only (now : Z) (sid : string) (w : World) :
  (∃ info : SessionInfo, get_session_info now sid w = Returns info w) ∧
  (∀ l : nat, _memory (self w) !! sid = Some l →
     (∃ w1 : World, get_history now sid w = Returns l w1 ∧
                    _last_activity (self w1) !! sid = Some now) ∧
     (∀ now1 : Z, ∃ (messages : list Message) (w2 : World),
        get_langchain_format now1 now sid w = Returns messages w2 ∧
        _last_activity (self w2) !! sid = Some now)).
Proof.
  split.
  - rewrite get_session_info_run. eauto.
  - intros l Hm. split.
    + rewrite get_history_run, Hm. eexists. split; [done|].
      simpl. apply lookup_insert_eq.
    + intros now1. rewrite get_langchain_format_run, Hm. eexists _, _.
      split; [done|]. simpl. apply lookup_insert_eq.
Qed.

Lemma get_session_info_reads_only_witness :
  (∃ info, get_session_info 50 "s1" one_session = Returns info one_session) ∧
  ∃ w1, get_history 50 "s1" one_session = Returns 0%nat w1 ∧
        _last_activity (self w1) !! "s1" = Some 50.
Proof.
  destruct (get_session_info_reads_only 50 "s1" one_session) as [H1 H2].
  split; [exact H1|]. apply (H2 0%nat). vm_compute. reflexivity.
Defined.

(** ** [get_all_sessions] *)

(** The list objects that exist before an [add_exchange] keep their
    content, except the one bound to the session, which gets the new
    pair appended. *)
Lemma add_exchange_lists t1 t2 mh sid q a (w w' : World) (l0 : nat) :
  add_exchange t1 t2 mh sid q a w = Returns tt w' →
  (l0 < length (lists w))%nat →
  lists w' !! l0 =
    if decide (_memory (refreshed_swept t1 t2 sid (self w)) !! sid = Some l0)
    then (fun h => h ++ [(q, a)]) <$> lists w !! l0
    else lists w !! l0.
Proof.
  rewrite add_exchange_run. cbv zeta. intros Hrun Hl0.
  set (s2 := refreshed_swept t1 t2 sid (self w)) in *.
  set (l := default (length (lists w)) (_memory s2 !! sid)) in *.
  set (heap1 := match _memory s2 !! sid with
                | Some _ => lists w
                | None => lists w ++ [[]]
                end) in *.
  set (heap2 := alter (fun h => h ++ [(q, a)]) l heap1) in *.
  assert (Hlen : (l0 < length heap2)%nat).
  { subst heap2 heap1. rewrite length_alter.
    destruct (_memory s2 !! sid); rewrite ?length_app; simpl; lia. }
  assert (Hheap2 : heap2 !! l0 =
            if decide (_memory s2 !! sid = Some l0)
            then (fun h => h ++ [(q, a)]) <$> lists w !! l0
            else lists w !! l0).
  { subst heap2 heap1 l. destruct (_memory s2 !! sid) as [l|]; cbv [from_option id].
    - destruct (decide (l = l0)) as [->|Hne].
      + rewrite decide_True by done. apply list_lookup_alter_eq.
      + rewrite decide_False by congruence. by apply list_lookup_alter_ne.
    - rewrite decide_False by done.
      rewrite list_lookup_alter_ne by lia. by apply lookup_app_l. }
  destruct (mh <? _) in Hrun; injection Hrun as <-; simpl.
  - by rewrite lookup_app_l.
  - done.
Qed.

Lemma memory_refreshed_swept_None t1 t2 sid (s : ChatMemoryService) :
  _memory s !! sid = None →
  _memory (refreshed_swept t1 t2 sid s) !! sid = None.
Proof.
  intros Hnone. unfold refreshed_swept. rewrite lookup_swept_memory.
  simpl. rewrite Hnone. by destruct (expired _ _ _).
Qed.

Lemma refs_valid_swept now (w : World) :
  refs_valid w → refs_valid {| lists := lists w; self := swept now (self w) |}.
Proof.
  intros Hw sid l. simpl lists. simpl self. rewrite lookup_swept_memory.
  destruct (expired now (self w) sid); [done|]. apply Hw.
Qed.

Lemma refs_valid_add_exchange t1 t2 mh sid q a (w w' : World) :
  refs_valid w → add_exchange t1 t2 mh sid q a w = Returns tt w' → refs_valid w'.
Proof.
  intros Hw. rewrite add_exchange_run. cbv zeta.
  set (s2 := refreshed_swept t1 t2 sid (self w)).
  assert (Hs2 : ∀ j l, _memory s2 !! j = Some l → (l < length (lists w))%nat).
  { intros j l. subst s2. unfold refreshed_swept. rewrite lookup_swept_memory.
    destruct (expired _ _ _); [done|]. apply Hw. }
  set (l := default (length (lists w)) (_memory s2 !! sid)).
  set (heap1 := match _memory s2 !! sid with
                | Some _ => lists w
                | None => lists w ++ [[]]
                end).
  assert (Hlen : (length (lists w) ≤ length heap1)%nat).
  { subst heap1. destruct (_memory s2 !! sid); rewrite ?length_app; simpl; lia. }
  assert (Hl : (l < length heap1)%nat).
  { subst l heap1. destruct (_memory s2 !! sid) as [l|] eqn:Hm; simpl.
    - by eapply Hs2.
    - rewrite length_app. simpl. lia. }
  destruct (mh <? _); intros [= <-] j lj; simpl;
    rewrite ?length_app, length_alter; simpl;
    (destruct (decide (j = sid)) as [->|Hne];
      [rewrite lookup_insert_eq; intros [= <-]; lia
      |rewrite lookup_insert_ne by done; intros Hj; apply Hs2 in Hj; lia]).
Qed.

Lemma refs_valid_run (op : operation) (w w' : World) :
  refs_valid w → run op w = Some w' → refs_valid w'.
Proof.
  intros Hw.
  destruct op as [t1 t2 mh sid q a|now sid|sid|now1 now2 sid|now|now|now sid|now];
    simpl.
  - destruct (add_exchange_maps t1 t2 mh sid q a w) as (w1 & l & Hrun & _).
    rewrite Hrun. intros [= <-]. by eapply refs_valid_add_exchange.
  - rewrite get_history_run.
    destruct (_memory (self w) !! sid); intros [= <-]; [done|].
    intros j l Hj. simpl. rewrite length_app. apply Hw in Hj. simpl. lia.
  - rewrite clear_session_run. intros [= <-] j l. simpl.
    intros Hj. apply (Hw j). by apply lookup_delete_Some in Hj as [_ Hj].
  - rewrite get_langchain_format_run.
    destruct (_memory (self w) !! sid); intros [= <-]; [done|].
    intros j l Hj. simpl. rewrite length_app. apply Hw in Hj. simpl. lia.
  - rewrite get_all_sessions_run. intros [= <-]. by apply refs_valid_swept.
  - rewrite session_count_run. intros [= <-]. by apply refs_valid_swept.
  - rewrite get_session_info_run. by intros [= <-].
  - rewrite cleanup_returns. intros [= <-]. by apply refs_valid_swept.
Qed.

(** Every reference a reachable service holds was allocated. *)
Lemma reachable_refs_valid (w : World) : reachable w → refs_valid w.
Proof.
  induction 1 as [minutes seconds|op w w' _ IH Hrun].
  - intros sid l. simpl. by rewrite lookup_empty.
  - by eapply refs_valid_run.
Qed.

(** C7 as stated fails: the dictionary returned by [get_all_sessions]
    reads one pair for session s1 when it is returned and two pairs after
    a later [add_exchange] on s1. *)
Lemma get_all_sessions_snapshot_changes :
  ∃ (snapshot : gmap string nat) (w1 w2 : World),
    get_all_sessions 5 one_session = Returns snapshot w1 ∧
    add_exchange 6 7 3 "s1" "q2" "a2" w1 = Returns tt w2 ∧
    snapshot_view w1 snapshot !! "s1" = Some [("q", "a")] ∧
    snapshot_view w2 snapshot !! "s1" = Some [("q", "a"); ("q2", "a2")] ∧
    snapshot_view w2 snapshot ≠ snapshot_view w1 snapshot.
Proof.
  eexists _, _, _. split; [vm_compute; reflexivity|].
  split; [vm_compute; reflexivity|].
  split; [vm_compute; reflexivity|]. split; [vm_compute; reflexivity|].
  intros Heq. apply (f_equal (fun m => m !! "s1")) in Heq.
  vm_compute in Heq. discriminate.
Qed.

(** ** What one write does *)

(** The effect of [add_exchange] in terms of the history [h0] the session
    has once its timestamp is refreshed and the sweep has run. *)
Lemma add_exchange_effect t1 t2 mh sid q a (w : World) (h0 : History) :
  let s2 := refreshed_swept t1 t2 sid (self w) in
  has_history {| lists := lists w; self := s2 |} sid h0 →
  ∃ (w' : World) (l' : nat),
    add_exchange t1 t2 mh sid q a w = Returns tt w' ∧
    _memory (self w') = <[sid := l']> (_memory s2) ∧
    _last_activity (self w') = _last_activity s2 ∧
    lists w' !! l' = Some (truncate mh (h0 ++ [(q, a)])) ∧
    (_memory s2 !! sid = Some l' ∨ (length (lists w) ≤ l')%nat).
Proof.
  intros s2 Hh. rewrite add_exchange_run. cbv zeta. fold s2.
  unfold has_history in Hh. cbn [lists self] in Hh.
  set (l := default (length (lists w)) (_memory s2 !! sid)).
  set (heap1 := match _memory s2 !! sid with
                | Some _ => lists w
                | None => lists w ++ [[]]
                end).
  assert (Hread : alter (fun h => h ++ [(q, a)]) l heap1 !! l = Some (h0 ++ [(q, a)])).
  { subst l heap1. rewrite list_lookup_alter_eq.
    destruct (_memory s2 !! sid) as [l|]; cbv [from_option id].
    - by rewrite Hh.
    - subst h0. by rewrite list_lookup_middle. }
  assert (Hlen : (length (lists w) ≤ length heap1)%nat).
  { subst heap1. destruct (_memory s2 !! sid); rewrite ?length_app; simpl; lia. }
  assert (Hl : _memory s2 !! sid = Some l ∨ (length (lists w) ≤ l)%nat).
  { subst l. destruct (_memory s2 !! sid); cbv [from_option id]; [by left|by right]. }
  rewrite Hread. simpl. unfold truncate.
  destruct (mh <? Z.of_nat (length (h0 ++ [(q, a)]))); eexists _, _;
    (split; [done|]); simpl; (split; [done|]); (split; [done|]).
  - split; [by rewrite list_lookup_middle|]. right. rewrite length_alter. lia.
  - done.
Qed.

(** After the refresh and the sweep the session still has some history
    to append to, when every reference is allocated. *)
Lemma has_history_refreshed_swept t1 t2 sid (w : World) :
  refs_valid w →
  ∃ h0 : History,
    has_history {| lists := lists w; self := refreshed_swept t1 t2 sid (self w) |} sid h0.
Proof.
  intros Hw. unfold has_history. simpl lists. simpl self.
  destruct (_memory (refreshed_swept t1 t2 sid (self w)) !! sid) as [l|] eqn:Hm;
    [|by exists []].
  apply lookup_lt_is_Some_2.
  unfold refreshed_swept in Hm. rewrite lookup_swept_memory in Hm.
  destruct (expired _ _ _); [done|]. by apply (Hw sid).
Qed.

Lemma memory_refreshed_swept_Some t1 t2 sid (s : ChatMemoryService) (j : string) (l : nat) :
  _memory (refreshed_swept t1 t2 sid s) !! j = Some l → _memory s !! j = Some l.
Proof.
  unfold refreshed_swept. rewrite lookup_swept_memory.
  by destruct (expired _ _ _).
Qed.

Lemma refs_distinct_swept now (s : ChatMemoryService) :
  refs_distinct s → refs_distinct (swept now s).
Proof.
  intros Hs sid1 sid2 l. rewrite !lookup_swept_memory.
  destruct (expired now s sid1), (expired now s sid2); try done. apply Hs.
Qed.

Lemma refs_distinct_add_exchange t1 t2 mh sid q a (w w' : World) :
  refs_valid w → refs_distinct (self w) →
  add_exchange t1 t2 mh sid q a w = Returns tt w' → refs_distinct (self w').
Proof.
  intros Hv Hd Hrun.
  destruct (has_history_refreshed_swept t1 t2 sid w Hv) as [h0 Hh].
  destruct (add_exchange_effect t1 t2 mh sid q a w h0 Hh)
    as (w1 & l' & Hrun1 & Hm & _ & _ & Hl).
  rewrite Hrun in Hrun1. injection Hrun1 as <-.
  intros j1 j2 l. rewrite Hm.
  assert (Hfresh : ∀ j, j ≠ sid →
            _memory (refreshed_swept t1 t2 sid (self w)) !! j ≠ Some l').
  { intros j Hne Hj. destruct Hl as [Hl|Hl].
    - apply memory_refreshed_swept_Some in Hl, Hj. by apply Hne, (Hd j sid l').
    - apply memory_refreshed_swept_Some, Hv in Hj. lia. }
  destruct (decide (j1 = sid)) as [->|H1], (decide (j2 = sid)) as [->|H2];
    rewrite ?lookup_insert_eq, ?lookup_insert_ne by done; try done.
  - intros [= <-] Hj. by destruct (Hfresh j2).
  - intros Hj [= <-]. by destruct (Hfresh j1).
  - intros Hj1%memory_refreshed_swept_Some Hj2%memory_refreshed_swept_Some.
    by apply (Hd j1 j2 l).
Qed.

Lemma refs_distinct_run (op : operation) (w w' : World) :
  refs_valid w → refs_distinct (self w) → run op w = Some w' →
  refs_distinct (self w').
Proof.
  intros Hv Hd.
  destruct op as [t1 t2 mh sid q a|now sid|sid|now1 now2 sid|now|now|now sid|now];
    simpl.
  - destruct (add_exchange_maps t1 t2 mh sid q a w) as (w1 & l & Hrun & _).
    rewrite Hrun. intros [= <-]. by eapply refs_distinct_add_exchange.
  - rewrite get_history_run.
    by destruct (_memory (self w) !! sid); intros [= <-].
  - rewrite clear_session_run. intros [= <-] j1 j2 l. simpl.
    intros [_ H1]%lookup_delete_Some [_ H2]%lookup_delete_Some.
    by apply (Hd j1 j2 l).
  - rewrite get_langchain_format_run.
    by destruct (_memory (self w) !! sid); intros [= <-].
  - rewrite get_all_sessions_run. intros [= <-]. by apply refs_distinct_swept.
  - rewrite session_count_run. intros [= <-]. by apply refs_distinct_swept.
  - rewrite get_session_info_run. by intros [= <-].
  - rewrite cleanup_returns. intros [= <-]. by apply refs_distinct_swept.
Qed.

Lemma reachable_refs_distinct (w : World) : reachable w → refs_distinct (self w).
Proof.
  induction 1 as [minutes seconds|op w w' Hw IH Hrun].
  - intros j1 j2 l. simpl. by rewrite lookup_empty.
  - eapply refs_distinct_run; [|done..]. by apply reachable_refs_valid.
Qed.

Lemma has_history_of (w : World) (sid : string) :
  refs_valid w → has_history w sid (default [] (history_of w sid)).
Proof.
  intros Hw. unfold has_history, history_of.
  destruct (_memory (self w) !! sid) as [l|] eqn:Hm; simpl; [|done].
  destruct (lookup_lt_is_Some_2 (lists w) l) as [h Hh]; [by eapply Hw|].
  by rewrite Hh.
Qed.

(** The history the session has after a write. *)
Lemma add_exchange_history_of t1 t2 mh sid q a (w : World) (h0 : History) :
  has_history {| lists := lists w; self := refreshed_swept t1 t2 sid (self w) |}
              sid h0 →
  ∃ w' : World,
    add_exchange t1 t2 mh sid q a w = Returns tt w' ∧
    history_of w' sid = Some (truncate mh (h0 ++ [(q, a)])) ∧
    _last_activity (self w') !! sid =
      if bool_decide (_session_timeout (self w) < t2 - t1) then None else Some t1.
Proof.
  intros Hh.
  destruct (add_exchange_effect t1 t2 mh sid q a w h0 Hh)
    as (w' & l' & Hrun & Hm & Ha & Hl' & _).
  exists w'. split; [done|]. split.
  - unfold history_of. rewrite Hm, lookup_insert_eq. simpl. by rewrite Hl'.
  - rewrite Ha. apply last_activity_refreshed_swept.
Qed.

Lemma has_history_in_time t1 t2 sid (w : World) :
  refs_valid w →
  t2 - t1 ≤ _session_timeout (self w) →
  has_history {| lists := lists w; self := refreshed_swept t1 t2 sid (self w) |}
              sid (default [] (history_of w sid)).
Proof.
  intros Hw Hle. pose proof (has_history_of w sid Hw) as Hh.
  unfold has_history in *. cbn [lists self].
  by rewrite memory_refreshed_swept_same.
Qed.

Lemma has_history_late t1 t2 sid (w : World) :
  _session_timeout (self w) < t2 - t1 →
  has_history {| lists := lists w; self := refreshed_swept t1 t2 sid (self w) |}
              sid [].
Proof.
  intros Hlt. unfold has_history. cbn [lists self].
  unfold refreshed_swept. rewrite lookup_swept_memory.
  unfold expired. simpl. rewrite lookup_insert_eq.
  by rewrite bool_decide_eq_true_2.
Qed.

Lemma truncate_nonpositive (mh : Z) (h : History) (x : Exchange) :
  mh ≤ 0 → truncate mh (h ++ [x]) = drop (Z.to_nat (- mh)) (h ++ [x]).
Proof.
  intros Hmh. unfold truncate, slice_from.
  rewrite (proj2 (Z.ltb_lt mh _)) by (rewrite length_app; simpl; lia).
  rewrite (proj2 (Z.ltb_ge (- mh) 0)) by lia.
  destruct (decide (- mh ≤ Z.of_nat (length (h ++ [x])))) as [Hle|Hgt].
  - by rewrite Z.min_l.
  - rewrite Z.min_r by lia. rewrite Nat2Z.id.
    rewrite drop_all. symmetry. apply drop_ge. lia.
Qed.

Lemma last_truncate_snoc (mh : Z) (h : History) (x : Exchange) :
  0 ≤ mh → last (truncate mh (h ++ [x])) = Some x.
Proof.
  intros Hmh. destruct (decide (mh = 0)) as [->|Hne].
  - rewrite truncate_nonpositive by lia. apply last_snoc.
  - rewrite truncate_last_n by lia. unfold last_n.
    rewrite length_app. simpl.
    rewrite drop_app_le by lia. apply last_snoc.
Qed.

Lemma length_truncate (mh : Z) (h : History) :
  0 < mh → Z.of_nat (length (truncate mh h)) ≤ mh.
Proof.
  intros Hmh. rewrite truncate_last_n by done. unfold last_n.
  rewrite length_drop. lia.
Qed.

(** X1. In every reachable world [add_exchange] with a [max_history] that
    is not negative returns, and the session written to then has a
    history whose last entry is the pair just written, whatever the two
    clock readings are. *)
Theorem add_exchange_keeps_the_write
    (t1 t2 mh : Z) (sid q a : string) (w : World) :
  reachable w →
  0 ≤ mh →
  ∃ (w' : World) (h : History),
    add_exchange t1 t2 mh sid q a w = Returns tt w' ∧
    history_of w' sid = Some h ∧
    last h = Some (q, a).
Proof.
  intros Hw%reachable_refs_valid Hmh.
  destruct (has_history_refreshed_swept t1 t2 sid w Hw) as [h0 Hh].
  destruct (add_exchange_history_of t1 t2 mh sid q a w h0 Hh)
    as (w' & Hrun & Hhist & _).
  exists w', (truncate mh (h0 ++ [(q, a)])).
  split; [done|]. split; [done|]. by apply last_truncate_snoc.
Qed.

Lemma add_exchange_keeps_the_write_witness :
  ∃ (w' : World) (h : History),
    add_exchange 100 (timedelta_minutes 45) 0 "s1" "q2" "a2" one_session
      = Returns tt w' ∧
    history_of w' "s1" = Some h ∧
    last h = Some ("q2", "a2").
Proof.
  apply (add_exchange_keeps_the_write 100 (timedelta_minutes 45) 0
           "s1" "q2" "a2" one_session reachable_one_session).
  lia.
Defined.

(** X2. In every reachable world, one [add_exchange] with a positive
    [max_history] leaves the session with at most [max_history]
    exchanges, however long its history was before. *)
Theorem add_exchange_bounds_history
    (t1 t2 mh : Z) (sid q a : string) (w : World) :
  reachable w →
  0 < mh →
  ∃ (w' : World) (h : History),
    add_exchange t1 t2 mh sid q a w = Returns tt w' ∧
    history_of w' sid = Some h ∧
    Z.of_nat (length h) ≤ mh.
Proof.
  intros Hw%reachable_refs_valid Hmh.
  destruct (has_history_refreshed_swept t1 t2 sid w Hw) as [h0 Hh].
  destruct (add_exchange_history_of t1 t2 mh sid q a w h0 Hh)
    as (w' & Hrun & Hhist & _).
  exists w', (truncate mh (h0 ++ [(q, a)])).
  split; [done|]. split; [done|]. by apply length_truncate.
Qed.

Lemma add_exchange_bounds_history_witness :
  ∃ (w' : World) (h : History),
    add_exchange 10 11 1 "s1" "q2" "a2" one_session = Returns tt w' ∧
    history_of w' "s1" = Some h ∧
    Z.of_nat (length h) ≤ 1.
Proof.
  apply (add_exchange_bounds_history 10 11 1 "s1" "q2" "a2" one_session
           reachable_one_session).
  lia.
Defined.

Lemma truncate_singleton (mh : Z) (x : Exchange) :
  0 ≤ mh → truncate mh [x] = [x].
Proof.
  intros Hmh. destruct (decide (mh = 0)) as [->|Hne].
  - exact (truncate_nonpositive 0 [] x ltac:(lia)).
  - unfold truncate. destruct (Z.ltb_spec mh (Z.of_nat (length [x]))) as [Hlt|Hge];
      [simpl in Hlt; lia|done].
Qed.

(** X3. A [max_history] that is not positive does not bound the history:
    in a reachable world, after a write whose sweep is in time, the
    session holds its old history and the new pair without the
    [- max_history] oldest entries; with [max_history = 0] nothing is
    dropped at all. *)
Theorem add_exchange_nonpositive_max_history
    (t1 t2 mh : Z) (sid q a : string) (w : World) :
  reachable w →
  mh ≤ 0 →
  t2 - t1 ≤ _session_timeout (self w) →
  ∃ w' : World,
    add_exchange t1 t2 mh sid q a w = Returns tt w' ∧
    history_of w' sid =
      Some (drop (Z.to_nat (- mh)) (default [] (history_of w sid) ++ [(q, a)])) ∧
    (mh = 0 →
     history_of w' sid = Some (default [] (history_of w sid) ++ [(q, a)])).
Proof.
  intros Hw%reachable_refs_valid Hmh Hle.
  destruct (add_exchange_history_of t1 t2 mh sid q a w _
              (has_history_in_time t1 t2 sid w Hw Hle))
    as (w' & Hrun & Hhist & _).
  rewrite truncate_nonpositive in Hhist by done.
  exists w'. split; [done|]. split; [done|]. intros ->. by rewrite Hhist.
Qed.

Lemma add_exchange_nonpositive_max_history_witness :
  ∃ w' : World,
    add_exchange 10 11 0 "s1" "q2" "a2" one_session = Returns tt w' ∧
    history_of w' "s1" = Some [("q", "a"); ("q2", "a2")].
Proof.
  destruct (add_exchange_nonpositive_max_history 10 11 0 "s1" "q2" "a2"
              one_session reachable_one_session)
    as (w' & Hrun & _ & Hzero).
  - lia.
  - vm_compute. discriminate.
  - exists w'. split; [exact Hrun|]. exact (Hzero eq_refl).
Defined.

(** X4. When the sweep inside [add_exchange] reads the clock more than the
    timeout after the refresh, the call evicts the session it writes to:
    afterwards the session holds the new pair alone and has no
    timestamp. *)
Theorem add_exchange_late_sweep
    (t1 t2 mh : Z) (sid q a : string) (w : World) :
  0 ≤ mh →
  _session_timeout (self w) < t2 - t1 →
  ∃ w' : World,
    add_exchange t1 t2 mh sid q a w = Returns tt w' ∧
    history_of w' sid = Some [(q, a)] ∧
    _last_activity (self w') !! sid = None.
Proof.
  intros Hmh Hlt.
  destruct (add_exchange_history_of t1 t2 mh sid q a w []
              (has_history_late t1 t2 sid w Hlt))
    as (w' & Hrun & Hhist & Ha).
  exists w'. split; [done|].
  rewrite bool_decide_eq_true_2 in Ha by done.
  simpl in Hhist. rewrite truncate_singleton in Hhist by done. done.
Qed.

Lemma add_exchange_late_sweep_witness :
  ∃ w' : World,
    add_exchange 100 (100 + timedelta_minutes 31) 3 "s1" "q2" "a2" one_session
      = Returns tt w' ∧
    history_of w' "s1" = Some [("q2", "a2")] ∧
    _last_activity (self w') !! "s1" = None.
Proof.
  apply (add_exchange_late_sweep 100 (100 + timedelta_minutes 31) 3
           "s1" "q2" "a2" one_session).
  - lia.
  - vm_compute. reflexivity.
Defined.

(** X5. A write to one session does not touch the others: in a reachable
    world, after [add_exchange] on [sid] every other session is either
    expired at the sweep's clock reading and gone from both dictionaries,
    or has the history and the timestamp it had. *)
Theorem add_exchange_other_sessions
    (t1 t2 mh : Z) (sid q a : string) (w : World) (j : string) :
  reachable w →
  j ≠ sid →
  ∃ w' : World,
    add_exchange t1 t2 mh sid q a w = Returns tt w' ∧
    (expired t2 (self w) j = true →
     _memory (self w') !! j = None ∧ _last_activity (self w') !! j = None) ∧
    (expired t2 (self w) j = false →
     history_of w' j = history_of w j ∧
     _last_activity (self w') !! j = _last_activity (self w) !! j).
Proof.
  intros Hw Hne.
  pose proof (reachable_refs_valid w Hw) as Hv.
  pose proof (reachable_refs_distinct w Hw) as Hd.
  destruct (add_exchange_maps t1 t2 mh sid q a w) as (w' & l' & Hrun & Hm & Ha & _).
  exists w'. split; [done|].
  destruct (refreshed_swept_other t1 t2 sid (self w) j Hne) as [Hmj Haj].
  rewrite lookup_swept_memory in Hmj. rewrite lookup_swept_last_activity in Haj.
  split; intros Hexp; rewrite Hexp in Hmj, Haj.
  - by rewrite Hm, Ha, lookup_insert_ne, Hmj, Haj.
  - split; [|by rewrite Ha, Haj].
    unfold history_of. rewrite Hm, lookup_insert_ne, Hmj by done.
    destruct (_memory (self w) !! j) as [lj|] eqn:Hj; [|done]. simpl.
    rewrite (add_exchange_lists _ _ _ _ _ _ _ _ lj Hrun) by by eapply Hv.
    rewrite decide_False; [done|].
    intros Hsid%memory_refreshed_swept_Some. by apply Hne, (Hd j sid lj).
Qed.

Lemma add_exchange_other_sessions_witness :
  ∃ w' : World,
    add_exchange 10 11 3 "s2" "q2" "a2" one_session = Returns tt w' ∧
    history_of w' "s1" = Some [("q", "a")] ∧
    _last_activity (self w') !! "s1" = Some 0.
Proof.
  destruct (add_exchange_other_sessions 10 11 3 "s2" "q2" "a2" one_session "s1"
              reachable_one_session)
    as (w' & Hrun & _ & Hkept).
  - discriminate.
  - exists w'. split; [exact Hrun|]. apply Hkept. vm_compute. reflexivity.
Defined.

(** X7. A write after [clear_session] starts the session anew: whatever
    the session held and whatever the clock readings, with a
    [max_history] that is not negative the session then holds exactly
    the new pair. *)
Theorem add_exchange_after_clear_session
    (t1 t2 mh : Z) (sid q a : string) (w : World) :
  0 ≤ mh →
  ∃ (existed : bool) (w1 w2 : World),
    clear_session sid w = Returns existed w1 ∧
    add_exchange t1 t2 mh sid q a w1 = Returns tt w2 ∧
    history_of w2 sid = Some [(q, a)].
Proof.
  intros Hmh. rewrite clear_session_run.
  set (w1 := {| lists := lists w; self := cleared sid (self w) |}).
  assert (Hh : has_history
                 {| lists := lists w1; self := refreshed_swept t1 t2 sid (self w1) |}
                 sid []).
  { unfold has_history. cbn [lists self].
    rewrite memory_refreshed_swept_None; [done|]. apply lookup_delete_eq. }
  destruct (add_exchange_history_of t1 t2 mh sid q a w1 [] Hh)
    as (w2 & Hrun & Hhist & _).
  simpl in Hhist. rewrite truncate_singleton in Hhist by done.
  by exists (bool_decide (session_exists (self w) sid)), w1, w2.
Qed.

Lemma add_exchange_after_clear_session_witness :
  ∃ (existed : bool) (w1 w2 : World),
    clear_session "s1" one_session = Returns existed w1 ∧
    add_exchange 10 11 3 "s1" "q2" "a2" w1 = Returns tt w2 ∧
    history_of w2 "s1" = Some [("q2", "a2")].
Proof.
  apply (add_exchange_after_clear_session 10 11 3 "s1" "q2" "a2" one_session).
  lia.
Defined.

(** ** Sweeps compose *)

Lemma expired_swept now1 now2 (s : ChatMemoryService) (j : string) :
  now1 ≤ now2 →
  (if expired now1 s j then true else expired now2 (swept now1 s) j)
  = expired now2 s j.
Proof.
  intros Hle. unfold expired at 2 3.
  rewrite lookup_swept_last_activity. unfold expired.
  destruct (_last_activity s !! j) as [t|]; [|done]. simpl.
  repeat case_bool_decide; try done; lia.
Qed.

Lemma swept_swept now1 now2 (s : ChatMemoryService) :
  now1 ≤ now2 → swept now2 (swept now1 s) = swept now2 s.
Proof.
  intros Hle. apply service_eq; try done; apply map_eq; intros j.
  - rewrite !lookup_swept_memory.
    rewrite <- (expired_swept now1 now2 s j Hle).
    by destruct (expired now1 s j), (expired now2 (swept now1 s) j).
  - rewrite !lookup_swept_last_activity.
    rewrite <- (expired_swept now1 now2 s j Hle).
    by destruct (expired now1 s j), (expired now2 (swept now1 s) j).
Qed.

(** X8. Two sweeps, the second at a clock reading that is not earlier,
    leave what one sweep at the second reading leaves, and the numbers
    they return add up to the number that sweep returns; a second sweep
    at the same reading removes nothing. *)
Theorem cleanup_twice (now1 now2 : Z) (w : World) :
  now1 ≤ now2 →
  ∃ (n1 n2 : nat) (w1 w2 : World),
    _cleanup_inactive_sessions now1 w = Returns n1 w1 ∧
    _cleanup_inactive_sessions now2 w1 = Returns n2 w2 ∧
    _cleanup_inactive_sessions now2 w = Returns (n1 + n2)%nat w2 ∧
    (now1 = now2 → n2 = 0%nat ∧ w2 = w1).
Proof.
  intros Hle.
  pose proof (length_inactive_sessions now1 (self w)) as H1.
  pose proof (length_inactive_sessions now2 (swept now1 (self w))) as H2.
  pose proof (length_inactive_sessions now2 (self w)) as H.
  rewrite swept_swept in H2 by done.
  exists (length (inactive_sessions now1 (self w))),
         (length (inactive_sessions now2 (swept now1 (self w)))),
         {| lists := lists w; self := swept now1 (self w) |},
         {| lists := lists w; self := swept now2 (self w) |}.
  rewrite !cleanup_returns. cbn [lists self]. rewrite swept_swept by done.
  split; [done|]. split; [done|]. split.
  - f_equal. lia.
  - intros <-. split; [lia|done].
Qed.

Lemma cleanup_twice_witness :
  ∃ (n1 n2 : nat) (w1 w2 : World),
    _cleanup_inactive_sessions (timedelta_minutes 10) one_session = Returns n1 w1 ∧
    _cleanup_inactive_sessions (timedelta_minutes 40) w1 = Returns n2 w2 ∧
    _cleanup_inactive_sessions (timedelta_minutes 40) one_session
      = Returns (n1 + n2)%nat w2.
Proof.
  destruct (cleanup_twice (timedelta_minutes 10) (timedelta_minutes 40) one_session)
    as (n1 & n2 & w1 & w2 & H1 & H2 & H3 & _).
  - vm_compute. discriminate.
  - exists n1, n2, w1, w2. split; [exact H1|]. split; [exact H2|exact H3].
Defined.

(** X9. [session_count] returns the size of the dictionary that
    [get_all_sessions] returns at the same clock reading and leaves the
    same world; the number is at most the number of history entries
    before, and asking again at that reading gives it again without
    changing anything. *)
Theorem session_count_counts_all_sessions (now : Z) (w : World) :
  ∃ (snapshot : gmap string nat) (w' : World),
    get_all_sessions now w = Returns snapshot w' ∧
    session_count now w = Returns (size snapshot) w' ∧
    (size snapshot ≤ size (_memory (self w)))%nat ∧
    session_count now w' = Returns (size snapshot) w'.
Proof.
  exists (_memory (swept now (self w))),
         {| lists := lists w; self := swept now (self w) |}.
  rewrite get_all_sessions_run, !session_count_run. cbn [lists self].
  rewrite swept_swept by done.
  split; [done|]. split; [done|]. split; [|done].
  apply map_size_filter.
Qed.

(** X10. For a session with a history entry and timestamp [t], the
    activity reported by [get_session_info] and the sweep at the same
    clock reading relate as follows: reported active, it survives the
    sweep; exactly the timeout after [t] it is reported inactive yet
    survives; later than that it is reported inactive and removed. *)
Theorem is_active_and_sweep (now : Z) (sid : string) (w : World) (l : nat) (t : Z) :
  _memory (self w) !! sid = Some l →
  _last_activity (self w) !! sid = Some t →
  ∃ (active : bool) (n : nat) (w' : World),
    get_session_info now sid w = Returns (Info (length (deref w l)) (Some t) active) w ∧
    _cleanup_inactive_sessions now w = Returns n w' ∧
    (now - t < _session_timeout (self w) →
     active = true ∧ _memory (self w') !! sid = Some l) ∧
    (now - t = _session_timeout (self w) →
     active = false ∧ _memory (self w') !! sid = Some l ∧
     _last_activity (self w') !! sid = Some t) ∧
    (now - t > _session_timeout (self w) →
     active = false ∧ _memory (self w') !! sid = None ∧
     _last_activity (self w') !! sid = None).
Proof.
  intros Hm Ha. rewrite get_session_info_run, cleanup_returns, Hm, Ha.
  eexists _, _, _. split; [done|]. split; [done|]. cbn [self].
  rewrite lookup_swept_memory, lookup_swept_last_activity.
  unfold expired. rewrite Hm, Ha.
  split_and!; intros Hcmp;
    [rewrite bool_decide_eq_true_2 by lia
    |rewrite (bool_decide_eq_false_2 (now - t < _)) by lia
    |rewrite (bool_decide_eq_false_2 (now - t < _)) by lia];
    [rewrite bool_decide_eq_false_2 by lia
    |rewrite bool_decide_eq_false_2 by lia
    |rewrite bool_decide_eq_true_2 by lia]; done.
Qed.

Lemma is_active_and_sweep_witness :
  ∃ (n : nat) (w' : World),
    get_session_info (timedelta_minutes 30) "s1" one_session
      = Returns (Info 1 (Some 0) false) one_session ∧
    _cleanup_inactive_sessions (timedelta_minutes 30) one_session = Returns n w' ∧
    _memory (self w') !! "s1" = Some 0%nat.
Proof.
  destruct (is_active_and_sweep (timedelta_minutes 30) "s1" one_session 0%nat 0)
    as (active & n & w' & Hinfo & Hrun & _ & Hedge & _).
  - vm_compute. reflexivity.
  - vm_compute. reflexivity.
  - destruct Hedge as (-> & Hm & _); [vm_compute; reflexivity|].
    exists n, w'. split; [exact Hinfo|]. split; [exact Hrun|exact Hm].
Defined.

(** X11. [get_langchain_format] never changes a history or the set of
    sessions: the history dictionary and every existing list object are
    as before; for a session without a history entry it returns no
    message and leaves the whole service unchanged; for one with a
    history entry the timestamp becomes the later of its two clock
    readings. *)
Theorem get_langchain_format_frame (now1 now2 : Z) (sid : string) (w : World) :
  ∃ (messages : list Message) (w' : World),
    get_langchain_format now1 now2 sid w = Returns messages w' ∧
    _memory (self w') = _memory (self w) ∧
    (∀ l h, lists w !! l = Some h → lists w' !! l = Some h) ∧
    (_memory (self w) !! sid = None → messages = [] ∧ self w' = self w) ∧
    (is_Some (_memory (self w) !! sid) →
     _last_activity (self w') = <[sid := now2]> (_last_activity (self w))).
Proof.
  rewrite get_langchain_format_run.
  destruct (_memory (self w) !! sid) as [l|] eqn:Hm; eexists _, _;
    (split; [done|]); simpl; (split; [done|]).
  - split; [done|]. split; [done|]. done.
  - split; [intros l h Hl; by apply lookup_app_l_Some|].
    split; [done|]. by intros [? ?].
Qed.

Lemma get_langchain_format_frame_witness :
  ∃ w' : World,
    get_langchain_format 3 4 "nobody" one_session = Returns [] w' ∧
    self w' = self one_session.
Proof.
  destruct (get_langchain_format_frame 3 4 "nobody" one_session)
    as (messages & w' & Hrun & _ & _ & Hnone & _).
  destruct Hnone as [-> Hself]; [vm_compute; reflexivity|].
  exists w'. split; [exact Hrun|exact Hself].
Defined.

(** ** Invariants of the reachable worlds, continued *)

(** X12. Every world reachable from a new service through the operations,
    whatever the clock readings, satisfies: each session with a
    timestamp has a history entry, each history entry refers to an
    allocated list object, and no two sessions share a list object. *)
Theorem reachable_well_formed (w : World) :
  reachable w →
  timestamps_have_history (self w) ∧ refs_valid w ∧ refs_distinct (self w).
Proof.
  intros Hw. split; [by apply reachable_timestamps_have_history|].
  split; [by apply reachable_refs_valid|by apply reachable_refs_distinct].
Qed.

Lemma reachable_well_formed_witness :
  timestamps_have_history (self one_session) ∧
  refs_valid one_session ∧
  refs_distinct (self one_session).
Proof. exact (reachable_well_formed one_session reachable_one_session). Defined.

Lemma add_exchange_history_of_other t1 t2 mh sid q a (w w' : World) (j : string) :
  refs_valid w → refs_distinct (self w) → j ≠ sid →
  add_exchange t1 t2 mh sid q a w = Returns tt w' →
  ∀ h : History, history_of w' j = Some h → history_of w j = Some h.
Proof.
  intros Hv Hd Hne Hrun h.
  destruct (add_exchange_maps t1 t2 mh sid q a w) as (w1 & l' & Hrun1 & Hm & _).
  rewrite Hrun in Hrun1. injection Hrun1 as <-.
  unfold history_of. rewrite Hm, lookup_insert_ne by done.
  destruct (_memory (refreshed_swept t1 t2 sid (self w)) !! j) as [lj|] eqn:Hj;
    [|done].
  apply memory_refreshed_swept_Some in Hj. rewrite Hj. simpl.
  rewrite (add_exchange_lists _ _ _ _ _ _ _ _ lj Hrun) by by eapply Hv.
  rewrite decide_False; [done|].
  intros Hsid%memory_refreshed_swept_Some. by apply Hne, (Hd j sid lj).
Qed.

(** Histories that only lose sessions and keep their list objects stay
    within the bound. *)
Lemma histories_bounded_sub (bound : Z) (w w' : World) :
  refs_valid w →
  (∀ j l, _memory (self w') !! j = Some l → _memory (self w) !! j = Some l) →
  (∀ l h, lists w !! l = Some h → lists w' !! l = Some h) →
  histories_bounded bound w → histories_bounded bound w'.
Proof.
  intros Hv Hm Hl Hb j h. unfold history_of.
  destruct (_memory (self w') !! j) as [l|] eqn:Hj; [|done]. simpl.
  intros [= <-]. apply (Hb j). unfold history_of.
  rewrite (Hm j l Hj). simpl. f_equal.
  destruct (lookup_lt_is_Some_2 (lists w) l) as [h Hh]; [by eapply Hv, Hm|].
  by rewrite Hh, (Hl l h Hh).
Qed.

(** X13. The bound on history lengths is an invariant: in a reachable
    world where no session holds more than [bound] exchanges, every
    operation, writes reading a positive [max_history] of at most
    [bound], leaves a world where no session holds more than [bound]
    exchanges. *)
Theorem operations_keep_histories_bounded
    (bound : Z) (op : operation) (w w' : World) :
  reachable w →
  histories_bounded bound w →
  writes_within bound op →
  run op w = Some w' →
  histories_bounded bound w'.
Proof.
  intros Hw Hb Hop.
  pose proof (reachable_refs_valid w Hw) as Hv.
  pose proof (reachable_refs_distinct w Hw) as Hd.
  assert (Hswept : ∀ now, histories_bounded bound
                            {| lists := lists w; self := swept now (self w) |}).
  { intros now. apply (histories_bounded_sub bound w); try done.
    intros j l. cbn [self]. rewrite lookup_swept_memory.
    by destruct (expired now (self w) j). }
  destruct op as [t1 t2 mh sid q a|now sid|sid|now1 now2 sid|now|now|now sid|now];
    simpl in *.
  - destruct (has_history_refreshed_swept t1 t2 sid w Hv) as [h0 Hh].
    destruct (add_exchange_history_of t1 t2 mh sid q a w h0 Hh)
      as (w1 & Hrun & Hhist & _).
    rewrite Hrun. intros [= <-] j h Hj.
    destruct (decide (j = sid)) as [->|Hne].
    + rewrite Hhist in Hj. injection Hj as <-.
      pose proof (length_truncate mh (h0 ++ [(q, a)])). lia.
    + apply (Hb j). by eapply add_exchange_history_of_other.
  - rewrite get_history_run.
    destruct (_memory (self w) !! sid); intros [= <-]; [done|].
    apply (histories_bounded_sub bound w); try done.
    intros l h Hl. by apply lookup_app_l_Some.
  - rewrite clear_session_run. intros [= <-].
    apply (histories_bounded_sub bound w); try done.
    intros j l. simpl. by intros [_ ?]%lookup_delete_Some.
  - rewrite get_langchain_format_run.
    destruct (_memory (self w) !! sid); intros [= <-]; [done|].
    apply (histories_bounded_sub bound w); try done.
    intros l h Hl. by apply lookup_app_l_Some.
  - rewrite get_all_sessions_run. by intros [= <-].
  - rewrite session_count_run. by intros [= <-].
  - rewrite get_session_info_run. by intros [= <-].
  - rewrite cleanup_returns. by intros [= <-].
Qed.

Lemma operations_keep_histories_bounded_witness :
  ∃ w' : World,
    run (AddExchange 10 11 1 "s1" "q2" "a2") one_session = Some w' ∧
    histories_bounded 1 w'.
Proof.
  eexists. split; [vm_compute; reflexivity|].
  apply (operations_keep_histories_bounded 1
           (AddExchange 10 11 1 "s1" "q2" "a2") one_session).
  - apply reachable_one_session.
  - intros sid h. unfold history_of. simpl.
    destruct (decide (sid = "s1")) as [->|Hne].
    + rewrite lookup_insert_eq. simpl. intros [= <-]. simpl. lia.
    + by rewrite lookup_insert_ne, lookup_empty.
  - simpl. lia.
  - vm_compute. reflexivity.
Defined.

(** ** The background reaper *)

Lemma try_cleanup_run (clock : nat → Z) (r : Reaper) :
  try_cleanup clock r =
  {| world := {| lists := lists (world r);
                 self := swept (clock (sweeps r)) (self (world r)) |};
     checks := checks r;
     sweeps := S (sweeps r);
     sleeps := sleeps r |}.
Proof. unfold try_cleanup. by rewrite cleanup_returns. Qed.

(** The inner loop, entered before the event is set: it either sleeps the
    whole interval, or stops at the call of [is_set] that is answered
    [True] first. *)
Lemma wait_interval_run (stop_after : nat) (fuel : nat) :
  ∀ (total : Z) (r : Reaper),
    (checks r ≤ stop_after)%nat →
    (Z.to_nat (_cleanup_interval_seconds (self (world r)) - total) ≤ fuel)%nat →
    ∃ (r' : Reaper) (k : nat),
      wait_interval fuel stop_after total r = Some r' ∧
      world r' = world r ∧
      sweeps r' = sweeps r ∧
      sleeps r' = (sleeps r + k)%nat ∧
      ((k = Z.to_nat (_cleanup_interval_seconds (self (world r)) - total) ∧
        checks r' = (checks r + k)%nat ∧
        (checks r' ≤ stop_after)%nat)
       ∨
       ((k < Z.to_nat (_cleanup_interval_seconds (self (world r)) - total))%nat ∧
        checks r' = S (checks r + k) ∧
        stop_after = (checks r + k)%nat)).
Proof.
  induction fuel as [|fuel IH]; intros total r Hclean Hfuel.
  - simpl. destruct (Z.ltb_spec total (_cleanup_interval_seconds (self (world r))))
      as [Hlt|Hge]; [lia|].
    exists r, 0%nat. split; [done|]. split; [done|]. split; [done|].
    split; [lia|]. left. lia.
  - simpl. destruct (Z.ltb_spec total (_cleanup_interval_seconds (self (world r))))
      as [Hlt|Hge].
    + case_bool_decide as Hstop.
      * eexists _, 0%nat. split; [done|]. simpl. split; [done|]. split; [done|].
        split; [lia|]. right. lia.
      * destruct (IH (total + 1)
                    (sleep {| world := world r; checks := S (checks r);
                              sweeps := sweeps r; sleeps := sleeps r |}))
          as (r' & k & Hrun & Hw & Hs & Hsl & Hk); simpl in *; [lia..|].
        exists r', (S k). split; [done|]. split; [done|]. split; [done|].
        split; [lia|]. destruct Hk as [Hk|Hk]; [left|right]; lia.
    + exists r, 0%nat. split; [done|]. split; [done|]. split; [done|].
      split; [lia|]. left. lia.
Qed.

Lemma swept_by_interval clock n (s : ChatMemoryService) :
  _cleanup_interval_seconds (swept_by clock n s) = _cleanup_interval_seconds s.
Proof. induction n as [|n IH]; simpl; [done|exact IH]. Qed.

Lemma run_cleanup_loop_unfold (fuel stop_after : nat) (clock : nat → Z) (r : Reaper) :
  _run_cleanup_loop fuel stop_after clock r =
  if bool_decide (stop_after ≤ checks r)%nat then Some (is_set stop_after r).2
  else match fuel with
       | O => None
       | S fuel' =>
           let r2 := try_cleanup clock (is_set stop_after r).2 in
           match wait_interval
                   (Z.to_nat (_cleanup_interval_seconds (self (world r2))))
                   stop_after 0 r2 with
           | Some r3 => _run_cleanup_loop fuel' stop_after clock r3
           | None => None
           end
       end.
Proof. by destruct fuel. Qed.

(** The outer loop from a state in which the event has not been seen set
    and every wait so far was a whole interval. *)
Lemma run_cleanup_loop_run (stop_after : nat) (clock : nat → Z) (w0 : World)
    (fuel : nat) :
  let i := Z.to_nat (_cleanup_interval_seconds (self w0)) in
  ∀ r : Reaper,
    world r = {| lists := lists w0; self := swept_by clock (sweeps r) (self w0) |} →
    (checks r ≤ stop_after)%nat →
    (sweeps r + sleeps r = checks r)%nat →
    sleeps r = (i * sweeps r)%nat →
    (stop_after - checks r ≤ fuel)%nat →
    ∃ r' : Reaper,
      _run_cleanup_loop fuel stop_after clock r = Some r' ∧
      world r' = {| lists := lists w0; self := swept_by clock (sweeps r') (self w0) |} ∧
      (sweeps r' + sleeps r' = stop_after)%nat ∧
      (sleeps r' ≤ i * sweeps r')%nat ∧
      (i * (sweeps r' - 1) ≤ sleeps r')%nat.
Proof.
  intros i. induction fuel as [|fuel IH]; intros r Hw Hclean Hsum Hfull Hfuel;
    rewrite run_cleanup_loop_unfold; case_bool_decide as Hstop; try lia.
  - eexists. split; [done|]. simpl. split; [done|]. split; [lia|]. split; [lia|].
    rewrite Hfull. apply Nat.mul_le_mono_l. lia.
  - eexists. split; [done|]. simpl. split; [done|]. split; [lia|]. split; [lia|].
    rewrite Hfull. apply Nat.mul_le_mono_l. lia.
  - cbv zeta. rewrite try_cleanup_run.
    cbn [is_set snd world checks sweeps sleeps]. rewrite Hw. cbn [lists self].
    set (r2 := {| world := {| lists := lists w0;
                              self := swept (clock (sweeps r))
                                            (swept_by clock (sweeps r) (self w0)) |};
                  checks := S (checks r);
                  sweeps := S (sweeps r);
                  sleeps := sleeps r |}).
    assert (Hi2 : _cleanup_interval_seconds
                    (swept (clock (sweeps r)) (swept_by clock (sweeps r) (self w0)))
                  = _cleanup_interval_seconds (self w0)).
    { simpl. apply (swept_by_interval clock (sweeps r) (self w0)). }
    rewrite Hi2. fold i.
    destruct (wait_interval_run stop_after i 0 r2)
      as (r3 & k & Hrun & Hw3 & Hs3 & Hsl3 & Hk).
    { simpl. lia. }
    { cbn [r2 world self]. rewrite Hi2. lia. }
    rewrite Hrun. cbn [r2 world self] in Hk. rewrite Hi2, Z.sub_0_r in Hk.
    fold i in Hk. cbn [r2 sweeps sleeps checks] in Hs3, Hsl3, Hk.
    destruct Hk as [(-> & Hc3 & Hle3)|(Hlt & Hc3 & Hstop3)].
    + apply IH; [by rewrite Hw3, Hs3|lia|lia| |lia].
      rewrite Hsl3, Hs3, Hfull. lia.
    + rewrite run_cleanup_loop_unfold, bool_decide_eq_true_2 by lia.
      eexists. split; [done|]. cbn [is_set snd world checks sweeps sleeps].
      rewrite Hw3, Hs3, Hsl3, Hfull. split; [done|].
      simpl. rewrite Nat.sub_0_r. split; [lia|]. split; lia.
Qed.

(** X14. Run on its own, the cleanup loop ends once the stop event is
    set. When [stop_after] calls of [is_set()] are answered [False]
    before the event is set, the loop returns (the fuel [stop_after]
    suffices); each of those answers led to one sweep or to one
    one-second sleep and nothing happened after the event was seen set;
    every sweep but the last was followed by a whole interval of sleeps;
    and the world is the starting one swept at the sweeps' clock
    readings. *)
Theorem run_cleanup_loop_until_stopped
    (stop_after : nat) (clock : nat → Z) (w : World) (fuel : nat) :
  (stop_after ≤ fuel)%nat →
  let i := Z.to_nat (_cleanup_interval_seconds (self w)) in
  ∃ r : Reaper,
    _run_cleanup_loop fuel stop_after clock (start w) = Some r ∧
    (sweeps r + sleeps r = stop_after)%nat ∧
    (sleeps r ≤ i * sweeps r)%nat ∧
    (i * (sweeps r - 1) ≤ sleeps r)%nat ∧
    world r = {| lists := lists w; self := swept_by clock (sweeps r) (self w) |}.
Proof.
  intros Hfuel i.
  destruct (run_cleanup_loop_run stop_after clock w fuel (start w))
    as (r & Hrun & Hw & Hsum & Hle & Hge); simpl; try lia.
  - by destruct w.
  - by exists r.
Qed.

Lemma run_cleanup_loop_until_stopped_witness :
  ∃ r : Reaper,
    _run_cleanup_loop 62 62 (fun k => timedelta_minutes 40 + Z.of_nat k)
      (start one_session) = Some r ∧
    sweeps r = 2%nat ∧ sleeps r = 60%nat ∧
    _memory (self (world r)) !! "s1" = None.
Proof.
  destruct (run_cleanup_loop_until_stopped 62
              (fun k => timedelta_minutes 40 + Z.of_nat k) one_session 62)
    as (r & Hrun & Hsum & Hle & Hge & Hw); [lia|].
  change (Z.to_nat (_cleanup_interval_seconds (self one_session))) with 60%nat
    in Hle, Hge.
  assert (Hs : sweeps r = 2%nat) by lia.
  exists r. split; [exact Hrun|]. split; [exact Hs|]. split; [lia|].
  rewrite Hw, Hs. vm_compute. reflexivity.
Defined.

Lemma swept_by_timeout clock n (s : ChatMemoryService) :
  _session_timeout (swept_by clock n s) = _session_timeout s.
Proof. induction n as [|n IH]; simpl; [done|exact IH]. Qed.

Lemma swept_by_kept (clock : nat → Z) (n : nat) (s : ChatMemoryService) (sid : string) :
  (∀ k, (k < n)%nat → expired (clock k) s sid = false) →
  _memory (swept_by clock n s) !! sid = _memory s !! sid ∧
  _last_activity (swept_by clock n s) !! sid = _last_activity s !! sid.
Proof.
  induction n as [|n IH]; intros Hk; [done|].
  destruct IH as [IHm IHa]; [intros k ?; apply Hk; lia|].
  cbn [swept_by]. rewrite lookup_swept_memory, lookup_swept_last_activity.
  assert (Hexp : expired (clock n) (swept_by clock n s) sid = false).
  { rewrite <- (Hk n) by lia. unfold expired.
    by rewrite IHa, swept_by_timeout. }
  by rewrite Hexp.
Qed.

Lemma swept_by_sub (clock : nat → Z) (n : nat) (s : ChatMemoryService) (sid : string) :
  (∀ l, _memory (swept_by clock n s) !! sid = Some l → _memory s !! sid = Some l) ∧
  (∀ t, _last_activity (swept_by clock n s) !! sid = Some t →
        _last_activity s !! sid = Some t).
Proof.
  induction n as [|n [IHm IHa]]; [done|].
  cbn [swept_by]. rewrite lookup_swept_memory, lookup_swept_last_activity.
  destruct (expired _ _ _); [done|]. by split.
Qed.

Lemma maps_agree_swept_by (clock : nat → Z) (n : nat) (s : ChatMemoryService) :
  maps_agree s → maps_agree (swept_by clock n s).
Proof.
  intros Hs. induction n as [|n IH]; [done|]. by apply maps_agree_swept.
Qed.

(** X15. What the cleanup loop, run on its own until the stop event is
    set, does to the sessions: it touches no list object and adds no
    session or timestamp; two dictionaries on the same keys stay on the
    same keys; and a session that is not expired at the clock reading of
    any sweep made keeps its history entry and its timestamp. *)
Theorem run_cleanup_loop_sessions
    (stop_after : nat) (clock : nat → Z) (w : World) (fuel : nat) :
  (stop_after ≤ fuel)%nat →
  ∃ r : Reaper,
    _run_cleanup_loop fuel stop_after clock (start w) = Some r ∧
    lists (world r) = lists w ∧
    (maps_agree (self w) → maps_agree (self (world r))) ∧
    (∀ sid l, _memory (self (world r)) !! sid = Some l →
              _memory (self w) !! sid = Some l) ∧
    (∀ sid t, _last_activity (self (world r)) !! sid = Some t →
              _last_activity (self w) !! sid = Some t) ∧
    (∀ sid, (∀ k, (k < sweeps r)%nat → expired (clock k) (self w) sid = false) →
            _memory (self (world r)) !! sid = _memory (self w) !! sid ∧
            _last_activity (self (world r)) !! sid = _last_activity (self w) !! sid).
Proof.
  intros Hfuel.
  destruct (run_cleanup_loop_run stop_after clock w fuel (start w))
    as (r & Hrun & Hw & _); simpl; try lia.
  { by destruct w. }
  exists r. split; [done|]. rewrite Hw. cbn [lists self].
  split; [done|]. split; [apply maps_agree_swept_by|].
  split; [intros sid; apply swept_by_sub|].
  split; [intros sid; apply swept_by_sub|].
  intros sid. apply swept_by_kept.
Qed.

Lemma run_cleanup_loop_sessions_witness :
  ∃ r : Reaper,
    _run_cleanup_loop 10 10 (fun _ => timedelta_minutes 30) (start one_session)
      = Some r ∧
    _memory (self (world r)) !! "s1" = Some 0%nat ∧
    _last_activity (self (world r)) !! "s1" = Some 0.
Proof.
  destruct (run_cleanup_loop_sessions 10 (fun _ => timedelta_minutes 30)
              one_session 10)
    as (r & Hrun & _ & _ & _ & _ & Hkept); [lia|].
  exists r. split; [exact Hrun|]. apply Hkept.
  intros k _. vm_compute. reflexivity.
Defined.

(** ** The process-wide instance *)

Lemma swept_no_sessions now (s : ChatMemoryService) :
  _memory s = ∅ → _last_activity s = ∅ → swept now s = s.
Proof.
  intros Hm Ha. apply service_eq; try done; simpl.
  - rewrite Hm. apply map_filter_empty.
  - rewrite Ha. apply map_filter_empty.
Qed.

Lemma swept_by_no_sessions clock n (s : ChatMemoryService) :
  _memory s = ∅ → _last_activity s = ∅ → swept_by clock n s = s.
Proof.
  intros Hm Ha. induction n as [|n IH]; [done|].
  simpl. rewrite IH. by apply swept_no_sessions.
Qed.

Lemma chat_memory_cases (settings : Settings) :
  ∃ m c : Z, chat_memory settings = Some (init m c).
Proof.
  unfold chat_memory, new_service.
  destruct (session_timeout_minutes settings) as [m|]; simpl.
  - destruct (timedelta_minutes_ok m); simpl; eauto.
  - eauto.
Qed.

(** X16. The module-level construction never fails: whatever [settings]
    holds, [chat_memory] is a service with both dictionaries empty and a
    cleanup interval of at least 5 seconds. It has the configured timeout
    and interval (60 seconds when the interval is not configured) when
    [session_timeout_minutes] is there and [timedelta] accepts it, and
    the defaults of 30 minutes and 60 seconds otherwise. *)
Theorem chat_memory_constructed (settings : Settings) :
  ∃ s : ChatMemoryService,
    chat_memory settings = Some s ∧
    _memory s = ∅ ∧
    _last_activity s = ∅ ∧
    5 ≤ _cleanup_interval_seconds s ∧
    (∀ m, session_timeout_minutes settings = Some m →
          timedelta_minutes_ok m = true →
          _session_timeout s = timedelta_minutes m ∧
          _cleanup_interval_seconds s =
            Z.max 5 (default 60 (cleanup_interval_seconds settings))) ∧
    ((session_timeout_minutes settings = None ∨
      ∃ m, session_timeout_minutes settings = Some m ∧
           timedelta_minutes_ok m = false) →
     _session_timeout s = timedelta_minutes 30 ∧
     _cleanup_interval_seconds s = 60).
Proof.
  unfold chat_memory, new_service.
  destruct (session_timeout_minutes settings) as [m|]; simpl.
  - destruct (timedelta_minutes_ok m) eqn:Hok; simpl; eexists;
      (split; [done|]); simpl; (split; [done|]); (split; [done|]);
      (split; [lia|]).
    + split; [by intros ? [= <-] _|]. intros [?|(m' & [= <-] & Hm')]; congruence.
    + split; [intros ? [= <-] ?; congruence|done].
  - eexists. split; [done|]. simpl. split; [done|]. split; [done|].
    split; [lia|]. split; [by intros ? ?|done].
Qed.

Lemma chat_memory_constructed_witness :
  ∃ s : ChatMemoryService,
    chat_memory {| session_timeout_minutes := Some 45;
                   cleanup_interval_seconds := Some 2 |} = Some s ∧
    _session_timeout s = timedelta_minutes 45 ∧
    _cleanup_interval_seconds s = 5.
Proof.
  destruct (chat_memory_constructed
              {| session_timeout_minutes := Some 45;
                 cleanup_interval_seconds := Some 2 |})
    as (s & Hs & _ & _ & _ & Hconf & _).
  destruct (Hconf 45 eq_refl eq_refl) as [Ht Hc].
  exists s. split; [exact Hs|]. split; [exact Ht|exact Hc].
Defined.

(** X17. The cleanup loop of the process-wide instance, run on its own
    until the stop event is set: it leaves the new service as it is, and
    all sweeps but the last are each followed by at least 5 one-second
    sleeps, whatever interval is configured. *)
Theorem run_cleanup_loop_of_chat_memory
    (settings : Settings) (s : ChatMemoryService)
    (stop_after : nat) (clock : nat → Z) (fuel : nat) :
  chat_memory settings = Some s →
  (stop_after ≤ fuel)%nat →
  ∃ r : Reaper,
    _run_cleanup_loop fuel stop_after clock (start {| lists := []; self := s |})
      = Some r ∧
    world r = {| lists := []; self := s |} ∧
    (sweeps r + sleeps r = stop_after)%nat ∧
    (5 * (sweeps r - 1) ≤ sleeps r)%nat.
Proof.
  intros Hs Hfuel.
  destruct (chat_memory_cases settings) as (m & c & Hinit).
  rewrite Hs in Hinit. injection Hinit as ->.
  destruct (run_cleanup_loop_run stop_after clock
              {| lists := []; self := init m c |} fuel
              (start {| lists := []; self := init m c |}))
    as (r & Hrun & Hw & Hsum & _ & Hge); simpl; try lia; [done|].
  exists r. split; [done|].
  rewrite swept_by_no_sessions in Hw by done.
  split; [done|]. split; [done|].
  cbn [lists self init _cleanup_interval_seconds] in Hge.
  assert (Hi : (5 ≤ Z.to_nat (5 `max` c))%nat) by lia.
  pose proof (Nat.mul_le_mono_r 5 (Z.to_nat (5 `max` c)) (sweeps r - 1) Hi).
  lia.
Qed.

Lemma run_cleanup_loop_of_chat_memory_witness :
  ∃ r : Reaper,
    _run_cleanup_loop 20 20 (fun k => Z.of_nat k)
      (start {| lists := []; self := init 30 60 |}) = Some r ∧
    world r = {| lists := []; self := init 30 60 |} ∧
    (sweeps r + sleeps r = 20)%nat.
Proof.
  destruct (run_cleanup_loop_of_chat_memory
              {| session_timeout_minutes := None; cleanup_interval_seconds := None |}
              (init 30 60) 20 (fun k => Z.of_nat k) 20 eq_refl)
    as (r & Hrun & Hw & Hsum & _); [lia|].
  exists r. split; [exact Hrun|]. split; [exact Hw|exact Hsum].
Defined.

(** ** Sessions without a timestamp *)

(** X18. The sweep looks at timestamps only: a session that has a history
    entry and no timestamp survives every sweep, at any clock reading;
    [get_session_info] reports it with no last activity and as inactive;
    a [get_history] on it gives it a timestamp again. *)
Theorem session_without_timestamp
    (now : Z) (sid : string) (w : World) (l : nat) :
  _memory (self w) !! sid = Some l →
  _last_activity (self w) !! sid = None →
  (∃ (n : nat) (w' : World),
      _cleanup_inactive_sessions now w = Returns n w' ∧
      _memory (self w') !! sid = Some l ∧
      _last_activity (self w') !! sid = None) ∧
  get_session_info now sid w = Returns (Info (length (deref w l)) None false) w ∧
  (∃ w' : World,
      get_history now sid w = Returns l w' ∧
      _last_activity (self w') !! sid = Some now).
Proof.
  intros Hm Ha. split; [|split].
  - rewrite cleanup_returns. eexists _, _. split; [done|]. cbn [self].
    rewrite lookup_swept_memory, lookup_swept_last_activity.
    unfold expired. by rewrite Ha.
  - by rewrite get_session_info_run, Hm, Ha.
  - rewrite get_history_run, Hm. eexists. split; [done|].
    simpl. apply lookup_insert_eq.
Qed.

Lemma session_without_timestamp_witness :
  let w := {| lists := [[("q", "a")]];
              self := {| _memory := <["s1" := 0%nat]> ∅;
                         _last_activity := ∅;
                         _session_timeout := timedelta_minutes 30;
                         _cleanup_interval_seconds := 60 |} |} in
  ∃ (n : nat) (w' : World),
    _cleanup_inactive_sessions (timedelta_minutes 1000) w = Returns n w' ∧
    _memory (self w') !! "s1" = Some 0%nat ∧
    _last_activity (self w') !! "s1" = None.
Proof.
  intros w.
  apply (session_without_timestamp (timedelta_minutes 1000) "s1" w 0%nat);
    vm_compute; reflexivity.
Defined.

(** ** Runs of several operations *)

(** No operation raises. *)
Lemma run_returns (op : operation) (w : World) : ∃ w' : World, run op w = Some w'.
Proof.
  destruct op as [t1 t2 mh sid q a|now sid|sid|now1 now2 sid|now|now|now sid|now];
    simpl.
  - destruct (add_exchange_maps t1 t2 mh sid q a w) as (w' & l & -> & _). eauto.
  - rewrite get_history_run. destruct (_memory (self w) !! sid); eauto.
  - rewrite clear_session_run. eauto.
  - rewrite get_langchain_format_run. destruct (_memory (self w) !! sid); eauto.
  - rewrite get_all_sessions_run. eauto.
  - rewrite session_count_run. eauto.
  - rewrite get_session_info_run. eauto.
  - rewrite cleanup_returns. eauto.
Qed.

Lemma run_trace_returns (ops : list operation) :
  ∀ w : World, ∃ w' : World, run_trace ops w = Some w'.
Proof.
  induction ops as [|op ops IH]; intros w; simpl; [eauto|].
  destruct (run_returns op w) as [w1 ->]. apply IH.
Qed.

(** A write to another session leaves a session that is not expired at
    the sweep's reading bound to the same list object, with the same
    content and the same timestamp. *)
Lemma add_exchange_other_kept t1 t2 mh sid q a (w w' : World) (j : string) :
  refs_valid w → refs_distinct (self w) → j ≠ sid →
  expired t2 (self w) j = false →
  add_exchange t1 t2 mh sid q a w = Returns tt w' →
  _memory (self w') !! j = _memory (self w) !! j ∧
  _last_activity (self w') !! j = _last_activity (self w) !! j ∧
  ∀ l, _memory (self w) !! j = Some l → lists w' !! l = lists w !! l.
Proof.
  intros Hv Hd Hne Hexp Hrun.
  destruct (add_exchange_maps t1 t2 mh sid q a w) as (w1 & l' & Hrun1 & Hm & Ha & _).
  rewrite Hrun in Hrun1. injection Hrun1 as <-.
  destruct (refreshed_swept_other t1 t2 sid (self w) j Hne) as [Hmj Haj].
  rewrite lookup_swept_memory in Hmj. rewrite lookup_swept_last_activity in Haj.
  rewrite Hexp in Hmj, Haj.
  split; [by rewrite Hm, lookup_insert_ne, Hmj|]. split; [by rewrite Ha, Haj|].
  intros l Hl.
  rewrite (add_exchange_lists _ _ _ _ _ _ _ _ l Hrun) by by eapply Hv.
  rewrite decide_False; [done|].
  intros Hsid%memory_refreshed_swept_Some. by apply Hne, (Hd j sid l).
Qed.

Lemma has_history_same (w w' : World) (sid : string) (h : History) :
  _memory (self w') !! sid = _memory (self w) !! sid →
  (∀ l, _memory (self w) !! sid = Some l → lists w !! l = Some h →
        lists w' !! l = Some h) →
  has_history w sid h → has_history w' sid h.
Proof.
  unfold has_history. intros -> Hl.
  destruct (_memory (self w) !! sid) as [l|]; [|done]. by apply Hl.
Qed.

(** An operation that is not a write to [sid] and does not remove it
    leaves its history as it is. *)
Lemma run_keeps_history (sid : string) (mh : Z) (op : operation)
    (w w' : World) (h : History) :
  refs_valid w → refs_distinct (self w) →
  writes_to sid [op] = [] →
  keeps_session sid mh op (self w) →
  run op w = Some w' →
  has_history w sid h → has_history w' sid h.
Proof.
  intros Hv Hd Hnw Hk.
  destruct op as [t1 t2 mh' sid' q a|now sid'|sid'|now1 now2 sid'|now|now|now sid'|now];
    simpl in *.
  - destruct (decide (sid' = sid)) as [->|Hne]; [done|].
    destruct (add_exchange_maps t1 t2 mh' sid' q a w) as (w1 & l & Hrun & _).
    rewrite Hrun. intros [= <-].
    destruct (add_exchange_other_kept t1 t2 mh' sid' q a w w1 sid Hv Hd
                ltac:(congruence) Hk Hrun) as (Hm & _ & Hl).
    apply has_history_same; [done|]. intros l0 Hl0 Hh. by rewrite Hl.
  - rewrite get_history_run.
    destruct (_memory (self w) !! sid'); intros [= <-]; [done|].
    apply has_history_same; [done|]. intros l _ Hl. by apply lookup_app_l_Some.
  - rewrite clear_session_run. intros [= <-].
    apply has_history_same; [|done]. simpl. by rewrite lookup_delete_ne.
  - rewrite get_langchain_format_run.
    destruct (_memory (self w) !! sid'); intros [= <-]; [done|].
    apply has_history_same; [done|]. intros l _ Hl. by apply lookup_app_l_Some.
  - rewrite get_all_sessions_run. intros [= <-].
    apply has_history_same; [|done]. cbn [self]. by rewrite lookup_swept_memory, Hk.
  - rewrite session_count_run. intros [= <-].
    apply has_history_same; [|done]. cbn [self]. by rewrite lookup_swept_memory, Hk.
  - rewrite get_session_info_run. by intros [= <-].
  - rewrite cleanup_returns. intros [= <-].
    apply has_history_same; [|done]. cbn [self]. by rewrite lookup_swept_memory, Hk.
Qed.

(** The history of a session that a run never removes: what it held
    before and the pairs the run writes to it, bounded at each write. *)
Lemma run_trace_history (m : nat) (sid : string) (ops : list operation) :
  (0 < m)%nat →
  ∀ (w : World) (prev : History),
    refs_valid w → refs_distinct (self w) →
    kept_through sid (Z.of_nat m) ops w →
    has_history w sid (last_n m prev) →
    ∃ w' : World,
      run_trace ops w = Some w' ∧
      has_history w' sid (last_n m (prev ++ writes_to sid ops)).
Proof.
  intros Hm. induction ops as [|op ops IH]; intros w prev Hv Hd Hk Hh.
  - exists w. simpl. by rewrite app_nil_r.
  - destruct Hk as [Hop Hk]. cbn [run_trace].
    destruct (run op w) as [w1|] eqn:Hrun; [|done].
    pose proof (refs_valid_run op w w1 Hv Hrun) as Hv1.
    pose proof (refs_distinct_run op w w1 Hv Hd Hrun) as Hd1.
    destruct (decide (writes_to sid [op] = [])) as [Hnw|Hw].
    + assert (Hsame : writes_to sid (op :: ops) = writes_to sid ops).
      { destruct op as [? ? ? sid' ? ?| | | | | | |]; simpl in *; try done.
        by destruct (decide (sid' = sid)). }
      rewrite Hsame. apply IH; try done.
      exact (run_keeps_history sid (Z.of_nat m) op w w1 _ Hv Hd Hnw Hop Hrun Hh).
    + destruct op as [t1 t2 mh sid' q a| | | | | | |]; try done.
      simpl in Hw, Hop, Hrun |- *.
      destruct (decide (sid' = sid)) as [->|Hne]; [|done].
      destruct Hop as [-> Hle].
      destruct (add_exchange_history t1 t2 (Z.of_nat m) sid q a w _ Hle Hh)
        as (w2 & Hrun2 & _ & l & Hl & Hread).
      rewrite Hrun2 in Hrun. injection Hrun as <-.
      rewrite truncate_last_n, Nat2Z.id, last_n_snoc in Hread by lia.
      destruct (IH w2 (prev ++ [(q, a)])) as (w' & Hrun' & Hh'); try done.
      * unfold has_history. by rewrite Hl.
      * exists w'. split; [done|]. by rewrite <- app_assoc in Hh'.
Qed.

(** C1, as the code has it. Start in a reachable world in which session
    [sid] has no history and run any operations, among them [n] writes to
    [sid] that read the same positive [max_history]. If no operation of
    the run removes the session (no [clear_session] of it, the session
    not expired at the clock reading of any sweep that runs, each write
    to it sweeping at most the timeout after its refresh), then
    [get_history] returns the last [min n max_history] pairs written to
    it, in call order. *)
Theorem get_history_after_writes
    (w : World) (sid : string) (max_history now : Z) (ops : list operation) :
  reachable w →
  0 < max_history →
  _memory (self w) !! sid = None →
  kept_through sid max_history ops w →
  ∃ (w1 : World) (l : nat) (w2 : World),
    run_trace ops w = Some w1 ∧
    get_history now sid w1 = Returns l w2 ∧
    deref w2 l =
      last_n (Nat.min (length (writes_to sid ops)) (Z.to_nat max_history))
             (writes_to sid ops).
Proof.
  intros Hw Hpos Hnone Hk.
  rewrite <- (Z2Nat.id max_history) in Hk by lia.
  destruct (run_trace_history (Z.to_nat max_history) sid ops ltac:(lia) w []
              (reachable_refs_valid w Hw) (reachable_refs_distinct w Hw) Hk)
    as (w1 & Hrun & Hh).
  { unfold has_history. by rewrite Hnone. }
  simpl in Hh. exists w1. rewrite get_history_run.
  assert (Hlast :
    last_n (Nat.min (length (writes_to sid ops)) (Z.to_nat max_history))
           (writes_to sid ops)
    = last_n (Z.to_nat max_history) (writes_to sid ops)).
  { unfold last_n. f_equal. lia. }
  rewrite Hlast. unfold has_history in Hh.
  destruct (_memory (self w1) !! sid) as [l|]; eexists _, _;
    (split; [done|]); (split; [done|]); unfold deref; simpl.
  - by rewrite Hh.
  - rewrite list_lookup_middle by done. done.
Qed.

Lemma get_history_after_writes_witness :
  ∃ (w1 : World) (l : nat) (w2 : World),
    run_trace
      [AddExchange 0 1 3 "s1" "q1" "a1";
       AddExchange 10 11 3 "s2" "x" "y";
       AddExchange 20 21 3 "s1" "q2" "a2";
       Sweep (timedelta_minutes 30);
       AddExchange 40 41 3 "s1" "q3" "a3";
       GetAllSessions 50;
       AddExchange 60 61 3 "s1" "q4" "a4"] new_world = Some w1 ∧
    get_history 70 "s1" w1 = Returns l w2 ∧
    deref w2 l = [("q2", "a2"); ("q3", "a3"); ("q4", "a4")].
Proof.
  apply (get_history_after_writes new_world "s1" 3 70
           [AddExchange 0 1 3 "s1" "q1" "a1";
            AddExchange 10 11 3 "s2" "x" "y";
            AddExchange 20 21 3 "s1" "q2" "a2";
            Sweep (timedelta_minutes 30);
            AddExchange 40 41 3 "s1" "q3" "a3";
            GetAllSessions 50;
            AddExchange 60 61 3 "s1" "q4" "a4"]).
  - apply reachable_init.
  - lia.
  - reflexivity.
  - vm_compute. repeat split; discriminate.
Defined.

(** C1 as stated fails: with a 30 minute timeout and room for three
    pairs, a write to s1, then a write to s2 31 minutes later, whose
    sweep finds s1 expired and removes it, then a second write to s1:
    [get_history] returns the second pair alone, not the last two. *)
Lemma expiry_between_writes_restarts_history :
  ∃ (w1 : World) (l : nat) (w2 : World),
    run_trace
      [AddExchange 0 0 3 "s1" "q1" "a1";
       AddExchange (timedelta_minutes 31) (timedelta_minutes 31) 3 "s2" "x" "y";
       AddExchange (timedelta_minutes 32) (timedelta_minutes 32) 3 "s1" "q2" "a2"]
      new_world = Some w1 ∧
    get_history (timedelta_minutes 32) "s1" w1 = Returns l w2 ∧
    deref w2 l = [("q2", "a2")] ∧
    deref w2 l ≠ last_n (Nat.min 2 3) [("q1", "a1"); ("q2", "a2")].
Proof.
  eexists _, _, _. split; [vm_compute; reflexivity|].
  split; [vm_compute; reflexivity|]. split; [vm_compute; reflexivity|].
  vm_compute. discriminate.
Qed.

(** ** List objects over a run *)

Lemma memory_refreshed_swept_late t1 t2 sid (s : ChatMemoryService) :
  _session_timeout s < t2 - t1 →
  _memory (refreshed_swept t1 t2 sid s) !! sid = None.
Proof.
  intros Hlt. unfold refreshed_swept. rewrite lookup_swept_memory.
  unfold expired. simpl. rewrite lookup_insert_eq.
  by rewrite bool_decide_eq_true_2.
Qed.

Lemma appended_to_one (l : nat) (op : operation) (w w1 : World) :
  run op w = Some w1 →
  appended_to l [op] w =
  match op with
  | AddExchange t1 t2 _ sid q a =>
      if decide (_memory (self w) !! sid = Some l ∧
                 t2 - t1 ≤ _session_timeout (self w))
      then [(q, a)] else []
  | _ => []
  end.
Proof. intros Hrun. cbn [appended_to]. rewrite Hrun. apply app_nil_r. Qed.

(** What one operation does to an allocated list object: a write appends
    its pair when its session is bound to the object and its sweep is in
    time; nothing else changes the content. *)
Lemma run_appends (l : nat) (op : operation) (w w' : World) :
  (l < length (lists w))%nat →
  run op w = Some w' →
  (l < length (lists w'))%nat ∧
  deref w' l = deref w l ++ appended_to l [op] w.
Proof.
  intros Hl Hrun. rewrite (appended_to_one l op w w' Hrun).
  destruct (lookup_lt_is_Some_2 (lists w) l Hl) as [h Hh].
  assert (Hsame : lists w' !! l = Some h →
            (l < length (lists w'))%nat ∧ deref w' l = deref w l ++ []).
  { intros Hh'. split; [by eapply lookup_lt_Some|].
    unfold deref. by rewrite Hh, Hh', app_nil_r. }
  destruct op as [t1 t2 mh sid q a|now sid|sid|now1 now2 sid|now|now|now sid|now];
    simpl in Hrun.
  - destruct (add_exchange_maps t1 t2 mh sid q a w) as (w1 & l' & Hrun1 & _).
    rewrite Hrun1 in Hrun. injection Hrun as ->.
    pose proof (add_exchange_lists t1 t2 mh sid q a w w' l Hrun1 Hl) as Hlists.
    destruct (decide (_memory (self w) !! sid = Some l ∧
                      t2 - t1 ≤ _session_timeout (self w))) as [[Hm Hle]|Hno].
    + rewrite decide_True in Hlists
        by (by rewrite memory_refreshed_swept_same).
      rewrite Hh in Hlists. simpl in Hlists.
      split; [by eapply lookup_lt_Some|].
      unfold deref. by rewrite Hh, Hlists.
    + rewrite decide_False in Hlists.
      * rewrite Hh in Hlists. split; [by eapply lookup_lt_Some|].
        unfold deref. by rewrite Hh, Hlists, app_nil_r.
      * intros Hm. apply Hno.
        destruct (decide (t2 - t1 ≤ _session_timeout (self w))) as [Hle|Hgt].
        -- split; [|done]. by rewrite memory_refreshed_swept_same in Hm.
        -- rewrite memory_refreshed_swept_late in Hm by lia. done.
  - rewrite get_history_run in Hrun.
    destruct (_memory (self w) !! sid); injection Hrun as <-; apply Hsame;
      [done|]. by apply lookup_app_l_Some.
  - rewrite clear_session_run in Hrun. injection Hrun as <-. by apply Hsame.
  - rewrite get_langchain_format_run in Hrun.
    destruct (_memory (self w) !! sid); injection Hrun as <-; apply Hsame;
      [done|]. by apply lookup_app_l_Some.
  - rewrite get_all_sessions_run in Hrun. injection Hrun as <-. by apply Hsame.
  - rewrite session_count_run in Hrun. injection Hrun as <-. by apply Hsame.
  - rewrite get_session_info_run in Hrun. injection Hrun as <-. by apply Hsame.
  - rewrite cleanup_returns in Hrun. injection Hrun as <-. by apply Hsame.
Qed.

Lemma appended_to_cons (l : nat) (op : operation) (ops : list operation)
    (w w1 : World) :
  run op w = Some w1 →
  appended_to l (op :: ops) w = appended_to l [op] w ++ appended_to l ops w1.
Proof.
  intros Hrun. cbn [appended_to]. rewrite Hrun. by rewrite app_nil_r.
Qed.

(** The content of an allocated list object after a run. *)
Lemma run_trace_appends (l : nat) (ops : list operation) :
  ∀ w : World,
    (l < length (lists w))%nat →
    ∃ w' : World,
      run_trace ops w = Some w' ∧
      deref w' l = deref w l ++ appended_to l ops w.
Proof.
  induction ops as [|op ops IH]; intros w Hl.
  - exists w. simpl. by rewrite app_nil_r.
  - destruct (run_returns op w) as [w1 Hrun].
    destruct (run_appends l op w w1 Hl Hrun) as [Hl1 Hd1].
    destruct (IH w1 Hl1) as (w' & Hrun' & Hd').
    exists w'. cbn [run_trace]. rewrite Hrun. split; [done|].
    rewrite Hd', Hd1, (appended_to_cons l op ops w w1 Hrun).
    by rewrite app_assoc.
Qed.

Lemma reachable_run_trace (ops : list operation) :
  ∀ w w' : World, reachable w → run_trace ops w = Some w' → reachable w'.
Proof.
  induction ops as [|op ops IH]; intros w w' Hw; simpl.
  - by intros [= <-].
  - destruct (run op w) as [w1|] eqn:Hrun; [|done].
    apply IH. by eapply reachable_run.
Qed.

Lemma appended_to_no_write (l : nat) (ops : list operation) :
  ∀ w : World, writes_to_any ops = false → appended_to l ops w = [].
Proof.
  induction ops as [|op ops IH]; intros w Hno; [done|].
  destruct (run_returns op w) as [w1 Hrun].
  rewrite (appended_to_cons l op ops w w1 Hrun), (appended_to_one l op w w1 Hrun).
  destruct op; simpl in Hno; try done; by apply IH.
Qed.

(** C7, as the code has it. In every reachable world [get_all_sessions]
    sweeps first and then returns a new dictionary that binds each
    remaining session to the store's own list object. After any run of
    later operations, what is read through that dictionary for a session
    is its history at the time of the call followed by the pairs of
    exactly those [add_exchange] calls that started while their session
    was still bound to that same list object and swept in time; a run
    without [add_exchange] changes nothing that is read through it. *)
Theorem get_all_sessions_shares_lists (now : Z) (w : World) (ops : list operation) :
  reachable w →
  ∃ (snapshot : gmap string nat) (w1 w2 : World),
    get_all_sessions now w = Returns snapshot w1 ∧
    w1 = {| lists := lists w; self := swept now (self w) |} ∧
    snapshot = _memory (self w1) ∧
    (∀ sid, snapshot_view w1 snapshot !! sid = history_of w1 sid) ∧
    run_trace ops w1 = Some w2 ∧
    (∀ sid l, snapshot !! sid = Some l →
       snapshot_view w2 snapshot !! sid
       = Some (deref w1 l ++ appended_to l ops w1)) ∧
    (writes_to_any ops = false →
     snapshot_view w2 snapshot = snapshot_view w1 snapshot).
Proof.
  intros Hw%reachable_refs_valid.
  set (w1 := {| lists := lists w; self := swept now (self w) |}).
  assert (Hw1 : refs_valid w1) by by apply refs_valid_swept.
  destruct (run_trace_returns ops w1) as [w2 Hrun].
  exists (_memory (self w1)), w1, w2.
  split; [apply get_all_sessions_run|]. split; [done|]. split; [done|].
  assert (Hview : ∀ sid l, _memory (self w1) !! sid = Some l →
            snapshot_view w2 (_memory (self w1)) !! sid
            = Some (deref w1 l ++ appended_to l ops w1)).
  { intros sid l Hl. unfold snapshot_view. rewrite lookup_fmap, Hl. simpl.
    destruct (run_trace_appends l ops w1) as (w2' & Hrun' & Hd);
      [by eapply Hw1|].
    rewrite Hrun in Hrun'. injection Hrun' as <-. by rewrite Hd. }
  split_and!.
  - intros sid. unfold snapshot_view, history_of. rewrite lookup_fmap.
    by destruct (_memory (self w1) !! sid).
  - done.
  - exact Hview.
  - intros Hno. apply map_eq. intros sid.
    destruct (_memory (self w1) !! sid) as [l|] eqn:Hl.
    + rewrite (Hview sid l Hl), appended_to_no_write, app_nil_r by done.
      unfold snapshot_view. by rewrite lookup_fmap, Hl.
    + unfold snapshot_view. by rewrite !lookup_fmap, Hl.
Qed.

Lemma get_all_sessions_shares_lists_witness :
  ∃ (snapshot : gmap string nat) (w1 w2 : World),
    get_all_sessions 5 one_session = Returns snapshot w1 ∧
    run_trace [AddExchange 6 7 1 "s1" "q2" "a2";
               AddExchange 8 9 1 "s1" "q3" "a3"] w1 = Some w2 ∧
    snapshot_view w2 snapshot !! "s1" = Some [("q", "a"); ("q2", "a2")] ∧
    history_of w2 "s1" = Some [("q3", "a3")].
Proof.
  destruct (get_all_sessions_shares_lists 5 one_session
              [AddExchange 6 7 1 "s1" "q2" "a2";
               AddExchange 8 9 1 "s1" "q3" "a3"] reachable_one_session)
    as (snapshot & w1 & w2 & Hrun & -> & -> & _ & Hrun2 & Hview & _).
  eexists _, _, w2. split; [exact Hrun|]. split; [exact Hrun2|].
  split.
  - etrans; [apply (Hview "s1" 0%nat); vm_compute; reflexivity|].
    vm_compute. reflexivity.
  - vm_compute in Hrun2. injection Hrun2 as <-. vm_compute. reflexivity.
Defined.

(** X6. [get_history] hands out the stored list object, not a copy. In a
    reachable world, after any run of later operations the list a caller
    got for a session reads the history at the time of the call followed
    by the pairs of exactly those [add_exchange] calls that started while
    their session was still bound to that list object and swept in time;
    nothing is ever removed from it. *)
Theorem get_history_returns_the_stored_list
    (now : Z) (sid : string) (w : World) (h : History) (ops : list operation) :
  reachable w →
  history_of w sid = Some h →
  ∃ (l : nat) (w1 w2 : World),
    get_history now sid w = Returns l w1 ∧
    _memory (self w1) !! sid = Some l ∧
    deref w1 l = h ∧
    run_trace ops w1 = Some w2 ∧
    deref w2 l = h ++ appended_to l ops w1.
Proof.
  intros Hw%reachable_refs_valid Hh.
  unfold history_of in Hh.
  destruct (_memory (self w) !! sid) as [l|] eqn:Hm; [|done].
  simpl in Hh. injection Hh as Hh.
  rewrite get_history_run, Hm.
  set (w1 := {| lists := lists w;
                self := with_last_activity
                          (<[sid := now]> (_last_activity (self w))) (self w) |}).
  destruct (run_trace_appends l ops w1) as (w2 & Hrun & Hd);
    [by eapply (Hw sid)|].
  exists l, w1, w2. split; [done|]. split; [done|]. split; [done|].
  split; [done|]. rewrite Hd. f_equal. exact Hh.
Qed.

Lemma get_history_returns_the_stored_list_witness :
  ∃ (l : nat) (w1 w2 : World),
    get_history 5 "s1" one_session = Returns l w1 ∧
    run_trace [AddExchange 6 7 1 "s1" "q2" "a2";
               AddExchange 8 9 1 "s1" "q3" "a3"] w1 = Some w2 ∧
    deref w2 l = [("q", "a"); ("q2", "a2")] ∧
    history_of w2 "s1" = Some [("q3", "a3")].
Proof.
  destruct (get_history_returns_the_stored_list 5 "s1" one_session [("q", "a")]
              [AddExchange 6 7 1 "s1" "q2" "a2";
               AddExchange 8 9 1 "s1" "q3" "a3"] reachable_one_session)
    as (l & w1 & w2 & H1 & _ & _ & H2 & H3); [vm_compute; reflexivity|].
  exists l, w1, w2. split; [exact H1|]. split; [exact H2|].
  vm_compute in H1. injection H1 as <- <-.
  split; [etrans; [exact H3|vm_compute; reflexivity]|].
  vm_compute in H2. injection H2 as <-. vm_compute. reflexivity.
Defined.

(** ** Operations one at a time, and not *)

Lemma last_n_min (m : nat) (h : History) :
  last_n (Nat.min (length h) m) h = last_n m h.
Proof. unfold last_n. f_equal. lia. Qed.

(** C9, as the code has it. The service takes no lock; what holds, holds
    for operations that run one at a time. After any run in which the
    operations execute one after the other, each to completion, every
    session with a timestamp has a history entry, and writes to different
    sessions do not disturb each other: a session that starts without
    history and that no operation of the run removes holds the last
    [min n max_history] pairs of its own [n] writes, in their order,
    whatever is run on other sessions in between. *)
Theorem operations_one_at_a_time (w : World) (ops : list operation) :
  reachable w →
  ∃ w' : World,
    run_trace ops w = Some w' ∧
    timestamps_have_history (self w') ∧
    ∀ (sid : string) (max_history : Z),
      0 < max_history →
      _memory (self w) !! sid = None →
      kept_through sid max_history ops w →
      default [] (history_of w' sid) =
        last_n (Nat.min (length (writes_to sid ops)) (Z.to_nat max_history))
               (writes_to sid ops).
Proof.
  intros Hw. destruct (run_trace_returns ops w) as [w' Hrun].
  exists w'. split; [done|]. split.
  - apply reachable_timestamps_have_history. by eapply reachable_run_trace.
  - intros sid mh Hpos Hnone Hk.
    rewrite <- (Z2Nat.id mh) in Hk by lia.
    destruct (run_trace_history (Z.to_nat mh) sid ops ltac:(lia) w []
                (reachable_refs_valid w Hw) (reachable_refs_distinct w Hw) Hk)
      as (w1 & Hrun1 & Hh).
    { unfold has_history. by rewrite Hnone. }
    rewrite Hrun in Hrun1. injection Hrun1 as <-. simpl in Hh.
    rewrite last_n_min.
    unfold has_history in Hh. unfold history_of.
    destruct (_memory (self w') !! sid) as [l|]; simpl; [by rewrite Hh|done].
Qed.

Lemma operations_one_at_a_time_witness :
  ∃ w' : World,
    run_trace [AddExchange 0 1 2 "s1" "q1" "a1";
               AddExchange 2 3 2 "s2" "x1" "y1";
               AddExchange 4 5 2 "s1" "q2" "a2";
               AddExchange 6 7 2 "s2" "x2" "y2";
               AddExchange 8 9 2 "s1" "q3" "a3"] new_world = Some w' ∧
    timestamps_have_history (self w') ∧
    default [] (history_of w' "s1") = [("q2", "a2"); ("q3", "a3")] ∧
    default [] (history_of w' "s2") = [("x1", "y1"); ("x2", "y2")].
Proof.
  destruct (operations_one_at_a_time new_world
              [AddExchange 0 1 2 "s1" "q1" "a1";
               AddExchange 2 3 2 "s2" "x1" "y1";
               AddExchange 4 5 2 "s1" "q2" "a2";
               AddExchange 6 7 2 "s2" "x2" "y2";
               AddExchange 8 9 2 "s1" "q3" "a3"] (reachable_init 30 60))
    as (w' & Hrun & Hts & Hown).
  exists w'. split; [exact Hrun|]. split; [exact Hts|]. split.
  - apply (Hown "s1" 2); [lia|reflexivity|].
    vm_compute. repeat split; discriminate.
  - apply (Hown "s2" 2); [lia|reflexivity|].
    vm_compute. repeat split; discriminate.
Defined.

Lemma maps_agree_one_session : maps_agree (self one_session).
Proof.
  intros sid. simpl. destruct (decide (sid = "s1")) as [->|Hne].
  - rewrite !lookup_insert_eq. split; eauto.
  - rewrite !lookup_insert_ne, !lookup_empty by done. split; by intros [? ?].
Qed.

(** C9 as stated fails: nothing keeps the reaper out of an operation.
    Session s1 was last active at 0 and the timeout is 30 minutes; a
    [get_history] of s1 at 31 minutes finds the session (line 81), the
    reaper's sweep then removes it, and the timestamp write (line 82)
    leaves s1 with a timestamp and no history, which no operation run
    on its own can do. *)
Lemma sweep_inside_get_history :
  reachable one_session ∧
  maps_agree (self one_session) ∧
  ∃ (l : nat) (w' : World),
    get_history_swept_between (timedelta_minutes 31) (timedelta_minutes 31)
      "s1" one_session = Returns l w' ∧
    deref w' l = [] ∧
    _memory (self w') !! "s1" = None ∧
    _last_activity (self w') !! "s1" = Some (timedelta_minutes 31) ∧
    ¬ timestamps_have_history (self w') ∧
    ¬ maps_agree (self w').
Proof.
  split; [apply reachable_one_session|]. split; [apply maps_agree_one_session|].
  eexists _, _. split; [vm_compute; reflexivity|].
  split; [vm_compute; reflexivity|]. split; [vm_compute; reflexivity|].
  split; [vm_compute; reflexivity|].
  assert (Hts : ∀ w' : World,
            _memory (self w') !! "s1" = None →
            _last_activity (self w') !! "s1" = Some (timedelta_minutes 31) →
            ¬ timestamps_have_history (self w') ∧ ¬ maps_agree (self w')).
  { intros w' Hm Ha. split; intros H.
    - destruct (H "s1") as [l Hl]; [rewrite Ha; eauto|]. congruence.
    - destruct (proj2 (H "s1")) as [l Hl]; [rewrite Ha; eauto|]. congruence. }
  apply Hts; vm_compute; reflexivity.
Qed.
